(** * goxsd: the struct generator (generate.go)

    A shallow embedding of the generator of goxsd: the identifier
    normalizer ([lint], [lintTitle]), the type-name resolver ([typeName]),
    the four text templates ([attr], [child], [cdata], [elem]), the tree
    walker ([execute]) and the run ([do]).

    Go strings are byte sequences; they are embedded as [string] (one
    [ascii] per byte).  The visited set [g.types] is a [gset string].

    strings.Title works on runes.  [Title] is the function on ASCII text,
    where a rune is a byte, and the definitions built on it ([lint],
    [lintTitle], [typeName], the templates) are the code on ASCII names;
    [UTF8.TitleUTF8] is the function on every byte string, with the tables
    of package unicode as parameters, and [lintWith], [lintTitleWith] and
    [typeNameWith] at [TitleUTF8 U] are the code on every name.  The two
    agree on ASCII names (theorem [normalizer_ascii]). *)

From Stdlib Require Import NArith Ascii String List Bool Arith Lia.
From stdpp Require Import base gmap strings list.
Import ListNotations.

#[local] Set Warnings "-clear-no-such-hyp".

Local Open Scope string_scope.
Local Open Scope list_scope.

(** ** Bytes and strings *)

Module Strings.

(** The double quote, the newline and the space as bytes. *)
Definition dquote : ascii := ascii_of_nat 34.
Definition newline : ascii := ascii_of_nat 10.
Definition space : ascii := ascii_of_nat 32.
Definition dash : ascii := ascii_of_nat 45.
Definition underscore : ascii := ascii_of_nat 95.

Definition str (c : ascii) : string := String c EmptyString.

(** [has c s]: the byte [c] occurs in [s]. *)
Fixpoint has (c : ascii) (s : string) : bool :=
  match s with
  | EmptyString => false
  | String d t => Ascii.eqb d c || has c t
  end.

Definition between (lo hi : nat) (c : ascii) : bool :=
  Nat.leb lo (nat_of_ascii c) && Nat.leb (nat_of_ascii c) hi.

Definition isDigit (c : ascii) : bool := between 48 57 c.
Definition isUpper (c : ascii) : bool := between 65 90 c.
Definition isLower (c : ascii) : bool := between 97 122 c.

(** strings.isSeparator on ASCII text: digits, letters and the underscore
    are not separators, every other byte is.  This is the function on
    bytes below 0x80 only; above, Go decodes a rune and asks the tables of
    package unicode, which [UTF8.isSeparatorRune] does (a byte above 0x7F
    is left alone here). *)
Definition isSeparator (r : ascii) : bool :=
  if Nat.leb (nat_of_ascii r) 127 then
    if isDigit r then false
    else if isLower r then false
    else if isUpper r then false
    else if Ascii.eqb r underscore then false
    else true
  else false.

(** unicode.ToTitle on an ASCII byte: a lower-case letter goes to its
    upper-case letter, every other byte stays.  The function on every rune
    is [UTF8.ToTitleRune]. *)
Definition ToTitle (r : ascii) : ascii :=
  if isLower r then ascii_of_nat (nat_of_ascii r - 32) else r.

(** strings.Title on ASCII text, where a rune is a byte: [Map] over the
    string with the closure's variable [prev], which starts as a space and
    is set to the rune read (not to the rune written).  On other text
    strings.Title is [UTF8.TitleUTF8], which decodes and encodes runes; the
    two agree on ASCII text (lemma [TitleUTF8_ascii]). *)
Fixpoint Title_from (prev : ascii) (s : string) : string :=
  match s with
  | EmptyString => EmptyString
  | String r t =>
      String (if isSeparator prev then ToTitle r else r) (Title_from r t)
  end.

Definition Title (s : string) : string := Title_from space s.

(** strings.Split(s, sep) for a separator of one byte, which is what both
    call sites pass ("-" and "_"): the pieces between the occurrences of
    [sep]; always at least one piece. *)
Fixpoint Split (s : string) (sep : ascii) : list string :=
  match s with
  | EmptyString => [EmptyString]
  | String c t =>
      if Ascii.eqb c sep then EmptyString :: Split t sep
      else match Split t sep with
           | [] => [str c]
           | p :: ps => String c p :: ps
           end
  end.

(** strings.Join(pieces, ""). *)
Fixpoint Join (pieces : list string) : string :=
  match pieces with
  | [] => EmptyString
  | p :: ps => p +:+ Join ps
  end.

(** strings.Replace(s, old, "", -1) for [old] of one byte: every occurrence
    of the byte is deleted. *)
Fixpoint Remove (old : ascii) (s : string) : string :=
  match s with
  | EmptyString => EmptyString
  | String c t => if Ascii.eqb c old then Remove old t else String c (Remove old t)
  end.

(** [hasPrefix s p]: strings.HasPrefix. *)
Fixpoint hasPrefix (s p : string) : bool :=
  match p, s with
  | EmptyString, _ => true
  | String a p', String b s' => Ascii.eqb a b && hasPrefix s' p'
  | String _ _, EmptyString => false
  end.

(** *** strings.NewReplacer(...).Replace

    With keys longer than one byte Go builds its generic replacer: at each
    position it takes, among the keys that are a prefix of the rest of the
    input, the one declared first (highest priority), writes its
    replacement and continues after the key; where no key matches it copies
    one byte.  No key of the table is empty. *)
Fixpoint lookup (pairs : list (string * string)) (s : string)
  : option (string * string) :=
  match pairs with
  | [] => None
  | (old, new) :: rest =>
      if hasPrefix s old then Some (old, new) else lookup rest s
  end.

(** [skip] counts the bytes of a matched key still to be passed over. *)
Fixpoint Replace_from (pairs : list (string * string)) (skip : nat) (s : string)
  : string :=
  match s with
  | EmptyString => EmptyString
  | String c t =>
      match skip with
      | S k => Replace_from pairs k t
      | O =>
          match lookup pairs s with
          | Some (old, new) => new +:+ Replace_from pairs (String.length old - 1) t
          | None => String c (Replace_from pairs 0 t)
          end
      end
  end.

Definition Replace (pairs : list (string * string)) (s : string) : string :=
  Replace_from pairs 0 s.

(** fmt.Sprintf for a format whose only verb is %s and for string
    arguments, as the templates use it: each %s takes the next argument; a
    verb with no argument left prints %!s(MISSING), and arguments left at
    the end of the format are reported in a %!(EXTRA ...) group. *)
Fixpoint extra (args : list string) : string :=
  match args with
  | [] => EmptyString
  | [a] => "string=" +:+ a
  | a :: rest => "string=" +:+ a +:+ ", " +:+ extra rest
  end.

Fixpoint Sprintf (format : string) (args : list string) : string :=
  match format with
  | String "%" (String "s" t) =>
      match args with
      | a :: args' => a +:+ Sprintf t args'
      | [] => "%!s(MISSING)" +:+ Sprintf t []
      end
  | String c t => String c (Sprintf t args)
  | EmptyString =>
      match args with
      | [] => EmptyString
      | _ :: _ => "%!(EXTRA " +:+ extra args +:+ ")"
      end
  end.

End Strings.
Import Strings.

(** ** The identifier normalizer *)

(** The initialism pairs, in the order of the source. *)
Definition initialismPairs : list (string * string) :=
  [ ("Api", "API"); ("Ascii", "ASCII"); ("Cpu", "CPU"); ("Css", "CSS");
    ("Dns", "DNS"); ("Eof", "EOF"); ("Guid", "GUID"); ("Html", "HTML");
    ("Https", "HTTPS"); ("Http", "HTTP"); ("Id", "ID"); ("Ip", "IP");
    ("Json", "JSON"); ("Lhs", "LHS"); ("Qps", "QPS"); ("Ram", "RAM");
    ("Rhs", "RHS"); ("Rpc", "RPC"); ("Sla", "SLA"); ("Smtp", "SMTP");
    ("Sql", "SQL"); ("Ssh", "SSH"); ("Tcp", "TCP"); ("Tls", "TLS");
    ("Ttl", "TTL"); ("Udp", "UDP"); ("Uid", "UID"); ("Ui", "UI");
    ("Uuid", "UUID"); ("Uri", "URI"); ("Url", "URL"); ("Utf8", "UTF8");
    ("Vm", "VM"); ("Xml", "XML"); ("Xsrf", "XSRF"); ("Xss", "XSS") ].

(** initialisms.Replace *)
Definition initialisms (s : string) : string := Replace initialismPairs s.

Definition squish (s : string) : string := Remove space s.

Definition dashToCamel (name : string) : string :=
  match Split name dash with
  | s0 :: (_ :: _) as rest => Join (s0 :: map Title rest)
  | _ => name
  end.

Definition snakeToCamel (name : string) : string :=
  match Split name underscore with
  | s0 :: (_ :: _) as rest => Join (s0 :: map Title rest)
  | _ => name
  end.

Definition lint (s : string) : string :=
  snakeToCamel (dashToCamel (squish (initialisms s))).

Definition lintTitle (s : string) : string := lint (Title s).

(** ** The schema tree *)

(** Modelled from the spec: the declarations of the types xmlAttrib and
    xmlTree, which generate.go uses and another file of the repository
    declares.  A node has a name, a type, the list flag the Child template
    reads, the character-data flag, its attributes and its children (a
    finite tree: the pointers of the source are followed, and neither nil
    nor a cycle is represented). *)
Record xmlAttrib : Type := XmlAttrib {
  AttrName : string;
  AttrType : string
}.

#[local] Unset Elimination Schemes.
Inductive xmlTree : Type := XmlTree {
  Name : string;
  Type_ : string;
  List_ : bool;
  Cdata : bool;
  Attribs : list xmlAttrib;
  Children : list xmlTree
}.
#[local] Set Elimination Schemes.

(** Induction over a tree, with the hypothesis on every child. *)
Fixpoint xmlTree_ind (P : xmlTree -> Prop)
    (step : forall n a b c d cs, Forall P cs -> P (XmlTree n a b c d cs))
    (t : xmlTree) : P t :=
  match t with
  | XmlTree n a b c d cs =>
      step n a b c d cs
        ((fix all (l : list xmlTree) : Forall P l :=
            match l with
            | [] => @List.Forall_nil _ P
            | x :: l' => @List.Forall_cons _ P x l' (xmlTree_ind P step x) (all l')
            end) cs)
  end.

(** ** Type names and field types *)

Definition primitiveNames : list string :=
  ["bool"; "string"; "int"; "float64"; "time.Time"].

(** The case list of the two switch statements. *)
Definition primitiveName (name : string) : bool :=
  existsb (String.eqb name) primitiveNames.

(** The closure typeName of prepareTemplates, with the variables it
    captures as parameters. *)
Definition typeName (prefix : string) (exported : bool) (name : string) : string :=
  if primitiveName name then name
  else
    let name := if String.eqb prefix "" then name else prefix +:+ Title name in
    let name := if exported then Title name else name in
    lint name.

Definition fieldType (e : xmlTree) : string :=
  if Cdata e then Name e else Type_ e.

Definition primitiveType (e : xmlTree) : bool :=
  if Cdata e then false
  else primitiveName (Type_ e).

(** ** The templates

    Each action of a template is one term: printf is [Sprintf], a range is
    a [Join] of a [map], an if is an [if]; the text between actions is
    copied. *)
Section Templates.

Variable prefix : string.
Variable exported : bool.

Definition q : string := str dquote.
Definition nl : string := str newline.

Definition attr (a : xmlAttrib) : string :=
  Sprintf "  %s " [lintTitle (AttrName a)]
  +:+ Sprintf ("%s `xml:" +:+ q +:+ "%s,attr" +:+ q +:+ "`")
              [lint (AttrType a); AttrName a]
  +:+ nl.

Definition child (c : xmlTree) : string :=
  Sprintf "  %s " [lintTitle (Name c)]
  +:+ (if List_ c then "[]" else "")
  +:+ Sprintf ("%s `xml:" +:+ q +:+ "%s" +:+ q +:+ "`")
              [typeName prefix exported (fieldType c); Name c]
  +:+ nl.

Definition cdata (e : xmlTree) : string :=
  Sprintf ("%s %s `xml:" +:+ q +:+ ",chardata" +:+ q +:+ "`")
          [lintTitle (Name e); lint (Type_ e)]
  +:+ nl.

Definition elem (e : xmlTree) : string :=
  Sprintf ("// %s is generated from an XSD element" +:+ nl +:+ "type %s struct {" +:+ nl)
          [typeName prefix exported (Name e); typeName prefix exported (Name e)]
  +:+ Join (map attr (Attribs e))
  +:+ Join (map child (Children e))
  +:+ " "
  +:+ (if Cdata e then cdata e else "")
  +:+ " }" +:+ nl.

End Templates.

(** ** The walker *)

(** Go errors, by their message. *)
Definition Err : Type := string.

(** A parsed template set, by what tt.Execute does with it: the text it
    writes to the buffer and the error it returns (text written before an
    error stays in the buffer). *)
Definition Template : Type := xmlTree -> string * option Err.

(** What one call of execute did with its node: found its name visited,
    rendered it, or failed rendering it. *)
Inductive event : Type :=
  | Skipped (e : xmlTree)
  | Rendered (e : xmlTree)
  | Failed (e : xmlTree).

(** The state the walker works on: the set g.types, the buffer res, and a
    ghost log with one event per call of execute, in order. *)
Record walk : Type := Walk {
  types : gset string;
  res : string;
  trace : list event
}.

Definition note (ev : event) (st : walk) : walk :=
  Walk (types st) (res st) (trace st ++ [ev]).

Definition write (text : string) (st : walk) : walk :=
  Walk (types st) (res st +:+ text) (trace st).

Definition visit (name : string) (st : walk) : walk :=
  Walk ({[ name ]} ∪ types st) (res st) (trace st).

(** The loop over root.Children: primitive children are passed over, the
    first error ends the loop. *)
Definition rangeChildren (exec : xmlTree -> walk -> walk * option Err)
  : list xmlTree -> walk -> walk * option Err :=
  fix loop (cs : list xmlTree) (st : walk) : walk * option Err :=
    match cs with
    | [] => (st, None)
    | e :: cs' =>
        if primitiveType e then loop cs' st
        else match exec e st with
             | (st', Some err) => (st', Some err)
             | (st', None) => loop cs' st'
             end
    end.

Fixpoint execute (tt : Template) (root : xmlTree) (st : walk)
  : walk * option Err :=
  match root with
  | XmlTree name _ _ _ _ children =>
      if decide (name ∈ types st) then (note (Skipped root) st, None)
      else
        match tt root with
        | (text, Some err) => (note (Failed root) (write text st), Some err)
        | (text, None) =>
            rangeChildren (execute tt) children
              (note (Rendered root) (visit name (write text st)))
        end
  end.

(** The loop over the roots in do. *)
Fixpoint rangeRoots (tt : Template) (roots : list xmlTree) (st : walk)
  : walk * option Err :=
  match roots with
  | [] => (st, None)
  | e :: roots' =>
      match execute tt e st with
      | (st', Some err) => (st', Some err)
      | (st', None) => rangeRoots tt roots' st'
      end
  end.

(** ** The run *)


(** prepareTemplates: the four templates are constants that parse, so the
    error branches are never taken; executing the set runs elem, whose
    actions cannot fail on a tree. *)
Definition elemTemplate (prefix : string) (exported : bool) : Template :=
  fun root => (elem prefix exported root, None).

Definition prepareTemplates (prefix : string) (exported : bool)
  : Err + Template :=
  inr (elemTemplate prefix exported).

Section Run.

(** The writer the caller passes: its state and its Write method, which may
    change the state and may fail. *)
Variable Writer : Type.
Variable Write : Writer -> string -> Writer * option Err.

(** imports.Process, the formatter of golang.org/x/tools. *)
Variable Process : string -> Err + string.

(** The template preparation; [do] is the run with [prepareTemplates]. *)
Variable prepare : string -> bool -> Err + Template.




End Run.


(** ** Notions used by the statements *)

(** The body shared by dashToCamel and snakeToCamel. *)
Definition toCamel (sep : ascii) (name : string) : string :=
  match Split name sep with
  | s0 :: (_ :: _) as rest => Join (s0 :: map Title rest)
  | _ => name
  end.

(** [dropBytes n s] is s[n:] (the empty string when n exceeds len(s)). *)
Fixpoint dropBytes (n : nat) (s : string) : string :=
  match n, s with
  | O, _ => s
  | S k, String _ t => dropBytes k t
  | S _, EmptyString => EmptyString
  end.

Definition isSome {A : Type} (o : option A) : bool :=
  match o with Some _ => true | None => false end.

(** [occurs pairs s]: some key of the table is a prefix of s[i:] for some
    position i, that is, a second pass of the replacer would rewrite
    something. *)
Fixpoint occurs (pairs : list (string * string)) (s : string) : bool :=
  isSome (lookup pairs s)
  || match s with
     | EmptyString => false
     | String _ t => occurs pairs t
     end.

(** [separatorFree s]: s holds no space, no '-' and no '_'. *)
Definition separatorFree (s : string) : bool :=
  negb (has space s) && negb (has dash s) && negb (has underscore s).

(** What the replacer's table satisfies: no key is empty, a replacement is
    as long as its key and differs from it, and no replacement holds a
    space, a '-' or a '_'. *)
Definition pairOk (p : string * string) : bool :=
  negb (String.eqb (fst p) "")
  && Nat.eqb (String.length (fst p)) (String.length (snd p))
  && negb (String.eqb (fst p) (snd p))
  && separatorFree (snd p).

Definition tableOk (pairs : list (string * string)) : bool := forallb pairOk pairs.

(** *** Reading the log *)

Definition eventNode (ev : event) : xmlTree :=
  match ev with Skipped e | Rendered e | Failed e => e end.

Definition isFailed (ev : event) : bool :=
  match ev with Failed _ => true | _ => false end.

(** The nodes rendered with success, in order. *)
Fixpoint renderedNodes (evs : list event) : list xmlTree :=
  match evs with
  | [] => []
  | Rendered e :: rest => e :: renderedNodes rest
  | _ :: rest => renderedNodes rest
  end.

(** The names the events added to the visited set. *)
Definition names (evs : list event) : gset string :=
  list_to_set (map Name (renderedNodes evs)).

(** The text the events added to the buffer. *)
Fixpoint output (tt : Template) (evs : list event) : string :=
  match evs with
  | [] => ""
  | Skipped _ :: rest => output tt rest
  | Rendered e :: rest => fst (tt e) +:+ output tt rest
  | Failed e :: rest => fst (tt e) +:+ output tt rest
  end.

(** [sound tt seen evs]: the events are what the walker does from the
    visited set [seen]: a skipped node's name is visited, a rendered node's
    name is not and its rendering succeeds, a failed node's name is not,
    its rendering fails and nothing follows it. *)
Fixpoint sound (tt : Template) (seen : gset string) (evs : list event) : Prop :=
  match evs with
  | [] => True
  | Skipped e :: rest => Name e ∈ seen /\ sound tt seen rest
  | Rendered e :: rest =>
      (Name e ∉ seen) /\ snd (tt e) = None /\ sound tt ({[ Name e ]} ∪ seen) rest
  | Failed e :: rest => (Name e ∉ seen) /\ snd (tt e) <> None /\ rest = []
  end.

(** How the events end for the result [r] of the walk: no failure, or one
    failure, which is the last event and whose error is [r]. *)
Definition outcome (tt : Template) (evs : list event) (r : option Err) : Prop :=
  match r with
  | None => Forall (fun ev => isFailed ev = false) evs
  | Some err =>
      exists evs0 e, evs = evs0 ++ [Failed e]
        /\ Forall (fun ev => isFailed ev = false) evs0
        /\ snd (tt e) = Some err
  end.

(** [explains tt st evs st' r]: a walk from [st] to [st'] with result [r]
    logged [evs], and the set and the buffer of [st'] are those of [st]
    with what the events added. *)
Definition explains (tt : Template) (st : walk) (evs : list event)
    (st' : walk) (r : option Err) : Prop :=
  trace st' = trace st ++ evs
  /\ types st' = names evs ∪ types st
  /\ res st' = res st +:+ output tt evs
  /\ sound tt (types st) evs
  /\ outcome tt evs r.

(** [closed evs T]: the non-primitive children of the nodes rendered by
    [evs] have their names in [T]. *)
Definition closed (evs : list event) (T : gset string) : Prop :=
  forall p c, In p (renderedNodes evs) -> In c (Children p) ->
              primitiveType c = false -> Name c ∈ T.

(** The events of calls made on children: no node of theirs is primitive. *)
Definition onChildren (evs : list event) : Prop :=
  Forall (fun ev => primitiveType (eventNode ev) = false) evs.

(** What one call of execute is shown to do, for a node [root]: its first
    event is about [root], the others are about non-primitive nodes, and
    after a success the name of [root] is visited and so are the names of
    the non-primitive children of the nodes rendered. *)
Definition executeSpec (tt : Template) (root : xmlTree) : Prop :=
  forall st st' r, execute tt root st = (st', r) ->
  exists ev evs,
    explains tt st (ev :: evs) st' r
    /\ eventNode ev = root
    /\ onChildren evs
    /\ (r = None -> Name root ∈ types st' /\ closed (ev :: evs) (types st')).

(** *** The lines of a declaration

    The text of a field line by its three parts: the field's identifier,
    its declared type and the raw schema name of its tag. *)
Definition attrField (ident type raw : string) : string :=
  "  " +:+ ident +:+ " " +:+ type +:+ " `xml:" +:+ q +:+ raw +:+ ",attr" +:+ q +:+ "`" +:+ nl.

Definition childField (ident type raw : string) : string :=
  "  " +:+ ident +:+ " " +:+ type +:+ " `xml:" +:+ q +:+ raw +:+ q +:+ "`" +:+ nl.

Definition cdataField (ident type : string) : string :=
  ident +:+ " " +:+ type +:+ " `xml:" +:+ q +:+ ",chardata" +:+ q +:+ "`" +:+ nl.

(** The first lines of a declaration: the comment and the opening of the
    struct. *)
Definition declHead (ident : string) : string :=
  "// " +:+ ident +:+ " is generated from an XSD element" +:+ nl
  +:+ "type " +:+ ident +:+ " struct {" +:+ nl.

(** strings.HasSuffix and strings.Contains. *)
Definition hasSuffix (s suffix : string) : bool :=
  String.eqb (dropBytes (String.length s - String.length suffix) s) suffix.

Fixpoint Contains (s sub : string) : bool :=
  hasPrefix s sub
  || match s with
     | EmptyString => false
     | String _ t => Contains t sub
     end.

(** A template set whose execution fails on the nodes named [bad], after
    writing some text, and renders every other node with [elem]. *)
Definition failingOn (bad : string) : Template :=
  fun root =>
    if String.eqb (Name root) bad then ("// ", Some "template: failed")
    else (elem "" false root, None).




(** The example of the specification: Order with the attribute id and the
    repeated child line-item. *)
Definition lineItem : xmlTree :=
  XmlTree "line-item" "LineItem" true false [] [].

Definition order : xmlTree :=
  XmlTree "Order" "Order" false false [XmlAttrib "id" "int"] [lineItem].

(** *** Counting bytes, letter case, and the rewriting of the replacer *)

(** strings.Count(s, c) for one byte. *)
Fixpoint count (c : ascii) (s : string) : nat :=
  match s with
  | EmptyString => 0
  | String d t => (if Ascii.eqb d c then 1 else 0) + count c t
  end.

(** The number of spaces, '-' and '_' of a string. *)
Definition separators (s : string) : nat :=
  count space s + count dash s + count underscore s.

(** The string with its ASCII lower-case letters in upper case. *)
Fixpoint upper (s : string) : string :=
  match s with
  | EmptyString => EmptyString
  | String c t => String (ToTitle c) (upper t)
  end.

Definition isLetter (c : ascii) : bool := isLower c || isUpper c.

Definition isSeparatorByte (c : ascii) : bool :=
  Ascii.eqb c space || Ascii.eqb c dash || Ascii.eqb c underscore.

(** [rewrites pairs s s']: [s'] is [s] with some occurrences of keys, one
    after the other, replaced by their replacements, the other bytes
    copied. *)
Inductive rewrites (pairs : list (string * string)) : string -> string -> Prop :=
  | rewrites_done : rewrites pairs "" ""
  | rewrites_copy (c : ascii) (s s' : string) :
      rewrites pairs s s' -> rewrites pairs (String c s) (String c s')
  | rewrites_pair (old new s s' : string) :
      In (old, new) pairs -> rewrites pairs s s' ->
      rewrites pairs (old +:+ s) (new +:+ s').

(** More of what the table satisfies: a key holds no space, '-' or '_',
    starts with an upper-case letter which is also the first byte of its
    replacement, and differs from its replacement by letter case only. *)
Definition pairCase (p : string * string) : bool :=
  separatorFree (fst p)
  && String.eqb (upper (fst p)) (upper (snd p))
  && match fst p, snd p with
     | String a _, String b _ => Ascii.eqb a b && isUpper a
     | _, _ => false
     end.

Definition tableCase (pairs : list (string * string)) : bool :=
  forallb pairCase pairs.

(** The order of the table: where the keys of two pairs are prefixes of
    one another, the replacement of the pair declared first starts with
    the replacement of the other. *)
Fixpoint orderOk (pairs : list (string * string)) : bool :=
  match pairs with
  | [] => true
  | (k, n) :: rest =>
      forallb (fun p => if hasPrefix k (fst p) || hasPrefix (fst p) k
                        then hasPrefix n (snd p) else true)
              ((k, n) :: rest)
      && orderOk rest
  end.

(** [noUpper s]: no byte of s is an ASCII upper-case letter. *)
Fixpoint noUpper (s : string) : bool :=
  match s with
  | EmptyString => true
  | String c t => negb (isUpper c) && noUpper t
  end.

(** *** The forest the walker sees

    [reach e]: the node e, then, in order, what is reached from each of its
    children that is not primitive (the pre-order of the tree with the
    primitive children and what is below them cut off). *)
Definition reachChildren (reach : xmlTree -> list xmlTree)
  : list xmlTree -> list xmlTree :=
  fix go (cs : list xmlTree) : list xmlTree :=
    match cs with
    | [] => []
    | c :: cs' => if primitiveType c then go cs' else reach c ++ go cs'
    end.

Fixpoint reach (e : xmlTree) : list xmlTree :=
  match e with
  | XmlTree _ _ _ _ _ cs => e :: reachChildren reach cs
  end.

Definition reachAll (roots : list xmlTree) : list xmlTree :=
  flat_map reach roots.

(** No node of [l] has its name in [T]. *)
Definition fresh (l : list xmlTree) (T : gset string) : Prop :=
  forall x, In x l -> Name x ∉ T.

(** What a walk over nodes of pairwise distinct names does from [st]: it
    renders the nodes [l], in order. *)
Definition rendersAll (tt : Template) (l : list xmlTree) (st st' : walk)
    (r : option Err) : Prop :=
  r = None
  /\ trace st' = trace st ++ map Rendered l
  /\ types st' = list_to_set (map Name l) ∪ types st
  /\ res st' = res st +:+ Join (map (fun e => fst (tt e)) l).

Definition executeUnique (tt : Template) (e : xmlTree) : Prop :=
  forall st st' r, execute tt e st = (st', r) ->
  fresh (reach e) (types st) -> List.NoDup (map Name (reach e)) ->
  rendersAll tt (reach e) st st' r.

(** ** Runes: strings.Title as Go computes it

    strings.Title maps the runes of its argument, not its bytes: it decodes
    UTF-8, asks package unicode whether the rune before is a separator,
    title-cases the rune and encodes the result.  [Title] above is its
    restriction to ASCII text (lemma [TitleUTF8_ascii]); [TitleUTF8] is the
    function on every byte string.  A rune is a number ([N]). *)

Module UTF8.

Local Open Scope N_scope.

Definition RuneError : N := 0xFFFD.
Definition MaxRune : N := 0x10FFFF.

Definition byteN (c : ascii) : N := N_of_ascii c.

(** The conversion byte(x): the low eight bits. *)
Definition byte (n : N) : ascii := ascii_of_N (N.land n 0xFF).

Definition inRange (lo hi b : N) : bool := (lo <=? b) && (b <=? hi).

(** The table first of package utf8 with acceptRanges: for a leading byte
    above 0x7F, the length of the sequence and the range accepted for the
    second byte; None for a byte that starts no sequence. *)
Definition leadInfo (s0 : N) : option (N * N * N) :=
  if inRange 0xC2 0xDF s0 then Some (2, 0x80, 0xBF)
  else if s0 =? 0xE0 then Some (3, 0xA0, 0xBF)
  else if inRange 0xE1 0xEC s0 then Some (3, 0x80, 0xBF)
  else if s0 =? 0xED then Some (3, 0x80, 0x9F)
  else if inRange 0xEE 0xEF s0 then Some (3, 0x80, 0xBF)
  else if s0 =? 0xF0 then Some (4, 0x90, 0xBF)
  else if inRange 0xF1 0xF3 s0 then Some (4, 0x80, 0xBF)
  else if s0 =? 0xF4 then Some (4, 0x80, 0x8F)
  else None.

(** utf8.DecodeRuneInString: the rune at the start of s and its width; an
    invalid or short sequence gives RuneError with width 1, the empty
    string RuneError with width 0. *)
Definition DecodeRune (s : string) : N * nat :=
  match s with
  | EmptyString => (RuneError, 0%nat)
  | String c0 t0 =>
      let s0 := byteN c0 in
      if s0 <? 0x80 then (s0, 1%nat)
      else
        match leadInfo s0, t0 with
        | None, _ => (RuneError, 1%nat)
        | Some _, EmptyString => (RuneError, 1%nat)
        | Some (sz, lo, hi), String c1 t1 =>
            let s1 := byteN c1 in
            if negb (inRange lo hi s1) then (RuneError, 1%nat)
            else if sz =? 2 then
              (N.lor (N.shiftl (N.land s0 0x1F) 6) (N.land s1 0x3F), 2%nat)
            else
              match t1 with
              | EmptyString => (RuneError, 1%nat)
              | String c2 t2 =>
                  let s2 := byteN c2 in
                  if negb (inRange 0x80 0xBF s2) then (RuneError, 1%nat)
                  else if sz =? 3 then
                    (N.lor (N.lor (N.shiftl (N.land s0 0x0F) 12)
                                  (N.shiftl (N.land s1 0x3F) 6))
                           (N.land s2 0x3F), 3%nat)
                  else
                    match t2 with
                    | EmptyString => (RuneError, 1%nat)
                    | String c3 _ =>
                        let s3 := byteN c3 in
                        if negb (inRange 0x80 0xBF s3) then (RuneError, 1%nat)
                        else
                          (N.lor (N.lor (N.lor (N.shiftl (N.land s0 0x07) 18)
                                               (N.shiftl (N.land s1 0x3F) 12))
                                        (N.shiftl (N.land s2 0x3F) 6))
                                 (N.land s3 0x3F), 4%nat)
                    end
              end
        end
  end.

Definition encode3 (r : N) : string :=
  String (byte (N.lor 0xE0 (N.shiftr r 12)))
    (String (byte (N.lor 0x80 (N.land (N.shiftr r 6) 0x3F)))
       (String (byte (N.lor 0x80 (N.land r 0x3F))) EmptyString)).

(** utf8.AppendRune, which strings.Builder.WriteRune calls: a surrogate or
    a rune above MaxRune is written as RuneError. *)
Definition EncodeRune (r : N) : string :=
  if r <=? 0x7F then String (byte r) EmptyString
  else if r <=? 0x7FF then
    String (byte (N.lor 0xC0 (N.shiftr r 6)))
      (String (byte (N.lor 0x80 (N.land r 0x3F))) EmptyString)
  else if (MaxRune <? r) || inRange 0xD800 0xDFFF r then encode3 RuneError
  else if r <=? 0xFFFF then encode3 r
  else
    String (byte (N.lor 0xF0 (N.shiftr r 18)))
      (String (byte (N.lor 0x80 (N.land (N.shiftr r 12) 0x3F)))
         (String (byte (N.lor 0x80 (N.land (N.shiftr r 6) 0x3F)))
            (String (byte (N.lor 0x80 (N.land r 0x3F))) EmptyString))).

(** The tables of package unicode, which is no part of the repository, for
    the runes above 0x7F: they are parameters of what follows. *)
Record Tables : Type := MkTables {
  ToTitleTable : N -> N;
  IsLetter : N -> bool;
  IsDigit : N -> bool;
  IsSpace : N -> bool
}.

(** strings.isSeparator *)
Definition isSeparatorRune (U : Tables) (r : N) : bool :=
  if r <=? 0x7F then
    if inRange 48 57 r then false
    else if inRange 97 122 r then false
    else if inRange 65 90 r then false
    else if r =? 95 then false
    else true
  else if IsLetter U r || IsDigit U r then false
  else IsSpace U r.

(** unicode.ToTitle *)
Definition ToTitleRune (U : Tables) (r : N) : N :=
  if r <=? 0x7F then
    if inRange 97 122 r then r - 32 else r
  else ToTitleTable U r.

(** strings.Title: strings.Map with the closure that keeps the rune read
    before in prev.  Map writes, for every rune decoded (an invalid byte
    decodes as RuneError), the encoding of the rune the closure returns;
    [skip] counts the bytes of the sequence just decoded that are still to
    be passed over. *)
Fixpoint TitleUTF8_from (U : Tables) (prev : N) (skip : nat) (s : string)
  : string :=
  match s with
  | EmptyString => EmptyString
  | String _ t =>
      match skip with
      | S k => TitleUTF8_from U prev k t
      | O =>
          let (r, width) := DecodeRune s in
          EncodeRune (if isSeparatorRune U prev then ToTitleRune U r else r)
          +:+ TitleUTF8_from U r (width - 1) t
      end
  end.

Definition TitleUTF8 (U : Tables) (s : string) : string :=
  TitleUTF8_from U 32 0 s.

(** A few entries of the tables, enough for the examples: the long s
    (U+017F) title-cases to S, e with acute (U+00E9) and y with diaeresis
    (U+00FF) to their capitals, all three are letters, and the no-break
    space (U+00A0) is a space. *)
Definition someTables : Tables :=
  MkTables
    (fun r => if r =? 0x17F then 0x53
              else if r =? 0xE9 then 0xC9
              else if r =? 0xFF then 0x178
              else r)
    (fun r => (r =? 0x17F) || (r =? 0xE9) || (r =? 0xFF)
              || (r =? 0xC9) || (r =? 0x178))
    (fun _ => false)
    (fun r => r =? 0xA0).

(** [isASCII s]: every byte of s is below 0x80. *)
Fixpoint isASCII (s : string) : bool :=
  match s with
  | EmptyString => true
  | String c t => (byteN c <? 0x80) && isASCII t
  end.

End UTF8.
Import UTF8.

(** *** The normalizer over a title-casing function

    The functions of the normalizer with the title-casing they call as an
    argument: with [Title] they are the definitions above (lemma
    [lint_lintWith]), with [TitleUTF8 U] they are the code on every byte
    string. *)
Definition toCamelWith (title : string -> string) (sep : ascii) (name : string)
  : string :=
  match Split name sep with
  | s0 :: (_ :: _) as rest => Join (s0 :: map title rest)
  | _ => name
  end.

Definition lintWith (title : string -> string) (s : string) : string :=
  toCamelWith title underscore (toCamelWith title dash (squish (initialisms s))).

Definition lintTitleWith (title : string -> string) (s : string) : string :=
  lintWith title (title s).

Definition typeNameWith (title : string -> string) (prefix : string)
    (exported : bool) (name : string) : string :=
  if primitiveName name then name
  else
    let name := if String.eqb prefix "" then name else prefix +:+ title name in
    let name := if exported then title name else name in
    lintWith title name.

(** The three bytes the normalizer removes, as rune values. *)
Definition isSeparatorCode (r : N) : bool :=
  N.eqb r 32 || N.eqb r 45 || N.eqb r 95.


(** * Properties *)

(** ** Bytes of the normalizer's output *)

Section Occurrences.

Lemma has_append (c : ascii) (a b : string) :
  has c (a +:+ b) = has c a || has c b.
Proof.
  induction a as [|d a IH]; simpl; [reflexivity|].
  rewrite IH. apply orb_assoc.
Qed.

Lemma has_Remove_same (c : ascii) (s : string) : has c (Remove c s) = false.
Proof.
  induction s as [|d s IH]; simpl; [reflexivity|].
  destruct (Ascii.eqb d c) eqn:E; simpl; [assumption|].
  rewrite E. assumption.
Qed.

Lemma has_Remove (c d : ascii) (s : string) :
  has d (Remove c s) = true -> has d s = true.
Proof.
  induction s as [|e s IH]; simpl; [discriminate|].
  destruct (Ascii.eqb e c); simpl; intros H.
  - rewrite (IH H). apply orb_true_r.
  - apply orb_true_iff in H as [H|H]; [rewrite H; reflexivity|].
    rewrite (IH H). apply orb_true_r.
Qed.

Lemma Remove_id (c : ascii) (s : string) : has c s = false -> Remove c s = s.
Proof.
  induction s as [|d s IH]; simpl; [reflexivity|].
  intros H. apply orb_false_iff in H as [H1 H2].
  rewrite H1, (IH H2). reflexivity.
Qed.

(** The title-case of a byte is the byte itself or an upper-case letter. *)
Lemma ToTitle_cases (r : ascii) : ToTitle r = r \/ isUpper (ToTitle r) = true.
Proof.
  unfold ToTitle. destruct (isLower r) eqn:L; [right|left; reflexivity].
  unfold isLower, isUpper, between in *.
  apply andb_true_iff in L as [L1 L2].
  apply Nat.leb_le in L1. apply Nat.leb_le in L2.
  rewrite nat_ascii_embedding by lia.
  apply andb_true_iff. split; apply Nat.leb_le; lia.
Qed.

Lemma Split_cons (s : string) (sep : ascii) :
  exists p ps, Split s sep = p :: ps.
Proof.
  destruct s as [|c t]; simpl; [eauto|].
  destruct (Ascii.eqb c sep); [eauto|].
  destruct (Split t sep); eauto.
Qed.

(** No piece holds the separator, and a byte of a piece is a byte of the
    input. *)
Lemma Split_pieces (s : string) (sep d : ascii) (p : string) :
  In p (Split s sep) -> has d p = true ->
  has d s = true /\ Ascii.eqb d sep = false.
Proof.
  revert p. induction s as [|c t IH]; simpl; intros p Hin Hd.
  - destruct Hin as [<-|[]]. discriminate.
  - destruct (Ascii.eqb c sep) eqn:E.
    + destruct Hin as [<-|Hin]; [discriminate|].
      destruct (IH _ Hin Hd) as [H1 H2]. rewrite H1, orb_true_r. auto.
    + destruct (Split_cons t sep) as (p0 & ps & Hs). rewrite Hs in *.
      destruct Hin as [<-|Hin].
      * simpl in Hd. apply orb_true_iff in Hd as [Hd|Hd].
        -- rewrite Hd. split; [reflexivity|].
           apply Ascii.eqb_eq in Hd. subst d. assumption.
        -- destruct (IH p0 (or_introl eq_refl) Hd) as [H1 H2].
           rewrite H1, orb_true_r. auto.
      * destruct (IH p (or_intror Hin) Hd) as [H1 H2].
        rewrite H1, orb_true_r. auto.
Qed.

(** One piece only: the input holds no separator and is that piece. *)
Lemma Split_single (s : string) (sep : ascii) (p : string) :
  Split s sep = [p] -> p = s /\ has sep s = false.
Proof.
  revert p. induction s as [|c t IH]; simpl; intros p H.
  - injection H as <-. auto.
  - destruct (Ascii.eqb c sep) eqn:E.
    + destruct (Split_cons t sep) as (p0 & ps & Hs). rewrite Hs in H.
      discriminate.
    + destruct (Split_cons t sep) as (p0 & ps & Hs). rewrite Hs in *.
      injection H as <- ->. destruct (IH p0 eq_refl) as [-> H2].
      rewrite H2. auto.
Qed.

Lemma Split_none (s : string) (sep : ascii) :
  has sep s = false -> Split s sep = [s].
Proof.
  induction s as [|c t IH]; simpl; [reflexivity|].
  intros H. apply orb_false_iff in H as [H1 H2].
  rewrite H1, (IH H2). reflexivity.
Qed.

Lemma has_Join (d : ascii) (pieces : list string) :
  has d (Join pieces) = true -> exists p, In p pieces /\ has d p = true.
Proof.
  induction pieces as [|p ps IH]; simpl; [discriminate|].
  rewrite has_append. intros H. apply orb_true_iff in H as [H|H].
  - eauto.
  - destruct (IH H) as (p' & Hin & Hp). eauto.
Qed.

Lemma dashToCamel_toCamel (name : string) : dashToCamel name = toCamel dash name.
Proof. reflexivity. Qed.

Lemma snakeToCamel_toCamel (name : string) :
  snakeToCamel name = toCamel underscore name.
Proof. reflexivity. Qed.

Lemma toCamel_id (sep : ascii) (name : string) :
  has sep name = false -> toCamel sep name = name.
Proof. intros H. unfold toCamel. rewrite (Split_none _ _ H). reflexivity. Qed.

End Occurrences.

Example lint_fooBarBaz : lint "foo-bar_baz" = "fooBarBaz".
Proof. reflexivity. Qed.

Example lintTitle_user_id : lintTitle "user-id" = "UserID".
Proof. reflexivity. Qed.

Example lint_Apid : lint "Apid" = "APId" /\ lint "APId" = "APID".
Proof. split; reflexivity. Qed.

(** ** One pass of the replacer *)

Section Replacer.

Variable pairs : list (string * string).
Hypothesis pairs_ok : tableOk pairs = true.

Lemma pairs_In (old new : string) :
  In (old, new) pairs -> pairOk (old, new) = true.
Proof.
  intros H. unfold tableOk in pairs_ok.
  rewrite forallb_forall in pairs_ok. exact (pairs_ok _ H).
Qed.

Lemma lookup_In (l : list (string * string)) (s old new : string) :
  lookup l s = Some (old, new) -> In (old, new) l /\ hasPrefix s old = true.
Proof.
  induction l as [|[o n] l IH]; simpl; [discriminate|].
  destruct (hasPrefix s o) eqn:E.
  - intros [= <- <-]. auto.
  - intros H. destruct (IH H). auto.
Qed.

Lemma hasPrefix_append (s p : string) :
  hasPrefix s p = true -> s = p +:+ dropBytes (String.length p) s.
Proof.
  revert s. induction p as [|a p IH]; intros s; simpl; [reflexivity|].
  destruct s as [|b s]; [discriminate|].
  intros H. apply andb_true_iff in H as [H1 H2].
  apply Ascii.eqb_eq in H1. subst b.
  change (String a s = String a (p +:+ dropBytes (String.length p) s)).
  f_equal. apply IH, H2.
Qed.

Lemma lookup_found (s old new : string) :
  lookup pairs s = Some (old, new) ->
  s = old +:+ dropBytes (String.length old) s
  /\ old <> "" /\ String.length old = String.length new /\ old <> new
  /\ separatorFree new = true.
Proof.
  intros H. apply lookup_In in H as [Hin Hp].
  apply pairs_In in Hin. unfold pairOk in Hin. simpl in Hin.
  apply andb_true_iff in Hin as [Hin H4].
  apply andb_true_iff in Hin as [Hin H3].
  apply andb_true_iff in Hin as [H1 H2].
  apply negb_true_iff in H1, H3.
  apply String.eqb_neq in H1, H3. apply Nat.eqb_eq in H2.
  auto using hasPrefix_append.
Qed.

Lemma Replace_from_skip (n : nat) (s : string) :
  Replace_from pairs n s = Replace pairs (dropBytes n s).
Proof.
  unfold Replace. revert n. induction s as [|c t IH]; intros [|k]; try reflexivity.
  simpl. apply IH.
Qed.

(** Where a key matches, its replacement is written and the pass goes on
    after the key. *)
Lemma Replace_match (s old new : string) :
  lookup pairs s = Some (old, new) ->
  Replace pairs s = new +:+ Replace pairs (dropBytes (String.length old) s).
Proof.
  intros H. destruct (lookup_found _ _ _ H) as (Hs & Hne & _).
  destruct s as [|c t].
  - destruct old; [congruence|discriminate].
  - unfold Replace at 1. simpl. rewrite H. rewrite Replace_from_skip.
    destruct old as [|a old]; [congruence|]. simpl.
    rewrite Nat.sub_0_r. reflexivity.
Qed.

Lemma Replace_copy (c : ascii) (t : string) :
  lookup pairs (String c t) = None ->
  Replace pairs (String c t) = String c (Replace pairs t).
Proof. intros H. unfold Replace. simpl. rewrite H. reflexivity. Qed.

Lemma lookup_empty_string : lookup pairs "" = None.
Proof.
  destruct (lookup pairs "") as [[old new]|] eqn:H; [|reflexivity].
  destruct (lookup_found _ _ _ H) as (Hs & Hne & _).
  destruct old; [congruence|discriminate].
Qed.

Lemma append_same_length (a b x y : string) :
  String.length a = String.length b -> a +:+ x = b +:+ y -> a = b.
Proof.
  revert b. induction a as [|c a IH]; intros [|d b]; simpl; try discriminate.
  - reflexivity.
  - intros L [= -> H]. f_equal. apply (IH b); [lia|assumption].
Qed.

(** The pass leaves a string alone exactly when no key occurs in it. *)
Lemma Replace_fixed (s : string) :
  Replace pairs s = s <-> occurs pairs s = false.
Proof.
  induction s as [|c t IH].
  - simpl. rewrite lookup_empty_string. split; reflexivity.
  - simpl. destruct (lookup pairs (String c t)) as [[old new]|] eqn:H; simpl.
    + split; [|discriminate]. intros E. exfalso.
      rewrite (Replace_match _ _ _ H) in E.
      destruct (lookup_found _ _ _ H) as (Hs & _ & Hl & Hne & _).
      rewrite Hs in E at 2.
      apply append_same_length in E; [congruence|lia].
    + rewrite (Replace_copy _ _ H). rewrite <- IH. split.
      * intros [= E]. exact E.
      * intros ->. reflexivity.
Qed.

(** A byte that no replacement holds is not written by the pass. *)
Lemma has_Replace_from (d : ascii) (n : nat) (s : string) :
  (forall old new, In (old, new) pairs -> has d new = false) ->
  has d (Replace_from pairs n s) = true -> has d s = true.
Proof.
  intros Hd. revert n. induction s as [|c t IH]; intros n; simpl; [discriminate|].
  destruct n as [|k].
  - destruct (lookup pairs (String c t)) as [[old new]|] eqn:H.
    + rewrite has_append. intros E. apply orb_true_iff in E as [E|E].
      * apply lookup_In in H as [Hin _]. rewrite (Hd _ _ Hin) in E. discriminate.
      * rewrite (IH _ E). apply orb_true_r.
    + simpl. intros E. apply orb_true_iff in E as [E|E]; [rewrite E; reflexivity|].
      rewrite (IH _ E). apply orb_true_r.
  - intros E. rewrite (IH _ E). apply orb_true_r.
Qed.

Lemma separatorFree_spec (s : string) :
  separatorFree s = true <->
  has space s = false /\ has dash s = false /\ has underscore s = false.
Proof.
  unfold separatorFree. rewrite !andb_true_iff, !negb_true_iff. tauto.
Qed.

Lemma separatorFree_Replace (s : string) :
  separatorFree s = true -> separatorFree (Replace pairs s) = true.
Proof.
  rewrite !separatorFree_spec. intros (H1 & H2 & H3).
  assert (K : forall d, (forall new, separatorFree new = true -> has d new = false) ->
                        has d s = false -> has d (Replace pairs s) = false).
  { intros d Hn Hs. destruct (has d (Replace pairs s)) eqn:E; [|reflexivity].
    apply has_Replace_from in E; [congruence|].
    intros old new Hin. apply Hn.
    apply pairs_In in Hin. unfold pairOk in Hin.
    apply andb_true_iff in Hin as [_ Hin]. exact Hin. }
  repeat split; apply K; try assumption;
    intros new Hn; apply separatorFree_spec in Hn; tauto.
Qed.

End Replacer.

Lemma initialismPairs_ok : tableOk initialismPairs = true.
Proof. vm_compute. reflexivity. Qed.

(** On a string with no space, '-' or '_' the normalizer is the replacer's
    pass alone. *)
Lemma lint_separatorFree (x : string) :
  separatorFree x = true ->
  lint x = initialisms x /\ separatorFree (lint x) = true.
Proof.
  intros H.
  pose proof (separatorFree_Replace _ initialismPairs_ok _ H) as R.
  fold (initialisms x) in R.
  assert (E : lint x = initialisms x).
  { apply separatorFree_spec in R as (R1 & R2 & R3).
    unfold lint, squish. rewrite (Remove_id _ _ R1).
    rewrite dashToCamel_toCamel, (toCamel_id _ _ R2).
    rewrite snakeToCamel_toCamel, (toCamel_id _ _ R3). reflexivity. }
  rewrite E. auto.
Qed.

(** C5, as the code has it.  For every string x with no space, '-' or '_',
    [lint x] is the replacer's pass over x, and [lint (lint x) = lint x]
    holds exactly when no key of the initialism table occurs in [lint x];
    in particular [lint x = x] when no key occurs in x. *)
Theorem lint_idempotent_iff (x : string) :
  separatorFree x = true ->
  lint x = initialisms x
  /\ (lint (lint x) = lint x <-> occurs initialismPairs (lint x) = false)
  /\ (occurs initialismPairs x = false -> lint x = x).
Proof.
  intros H. destruct (lint_separatorFree x H) as [E S].
  split; [exact E|]. split.
  - destruct (lint_separatorFree _ S) as [E2 _]. rewrite E2.
    apply (Replace_fixed _ initialismPairs_ok).
  - intros O. rewrite E. apply (Replace_fixed _ initialismPairs_ok). exact O.
Qed.

Lemma lint_idempotent_iff_witness :
  separatorFree "UserId" = true
  /\ lint "UserId" = initialisms "UserId"
  /\ (lint (lint "UserId") = lint "UserId"
      <-> occurs initialismPairs (lint "UserId") = false)
  /\ (occurs initialismPairs "UserId" = false -> lint "UserId" = "UserId").
Proof. split; [reflexivity|]. apply (lint_idempotent_iff "UserId"). reflexivity. Defined.

(** C5, as stated, fails: "Apid" holds no space, '-' or '_', its normal form
    is "APId" (the pass rewrites "Api"), and normalizing that gives "APID"
    (the pass now finds "Id"). *)
Lemma lint_not_idempotent :
  ~ (forall x : string, separatorFree x = true -> lint (lint x) = lint x).
Proof. intros H. specialize (H "Apid" eq_refl). vm_compute in H. discriminate. Qed.

(** ** The walker and its log *)

Section Walker.

Variable tt : Template.

Lemma execute_eq (root : xmlTree) (st : walk) :
  execute tt root st =
  if decide (Name root ∈ types st) then (note (Skipped root) st, None)
  else match tt root with
       | (text, Some err) => (note (Failed root) (write text st), Some err)
       | (text, None) =>
           rangeChildren (execute tt) (Children root)
             (note (Rendered root) (visit (Name root) (write text st)))
       end.
Proof. destruct root. reflexivity. Qed.

Lemma append_assoc (a b c : string) : (a +:+ b) +:+ c = a +:+ (b +:+ c).
Proof.
  induction a as [|x a IH]; [reflexivity|].
  change (String x ((a +:+ b) +:+ c) = String x (a +:+ (b +:+ c))).
  rewrite IH. reflexivity.
Qed.

Lemma append_empty (a : string) : a +:+ "" = a.
Proof.
  induction a as [|x a IH]; [reflexivity|].
  change (String x (a +:+ "") = String x a). rewrite IH. reflexivity.
Qed.

Lemma renderedNodes_app (evs1 evs2 : list event) :
  renderedNodes (evs1 ++ evs2) = renderedNodes evs1 ++ renderedNodes evs2.
Proof.
  induction evs1 as [|[e|e|e] evs1 IH]; simpl; rewrite ?IH; reflexivity.
Qed.

Lemma names_app (evs1 evs2 : list event) :
  names (evs1 ++ evs2) = names evs1 ∪ names evs2.
Proof.
  unfold names. rewrite renderedNodes_app, map_app.
  apply list_to_set_app_L.
Qed.

Lemma output_app (evs1 evs2 : list event) :
  output tt (evs1 ++ evs2) = output tt evs1 +:+ output tt evs2.
Proof.
  induction evs1 as [|[e|e|e] evs1 IH]; simpl; rewrite ?IH, ?append_assoc;
    reflexivity.
Qed.

Lemma sound_app (seen : gset string) (evs1 evs2 : list event) :
  sound tt seen evs1 -> Forall (fun ev => isFailed ev = false) evs1 ->
  sound tt (names evs1 ∪ seen) evs2 -> sound tt seen (evs1 ++ evs2).
Proof.
  revert seen. induction evs1 as [|ev evs1 IH]; intros seen H1 HF H2.
  - simpl. replace seen with (names [] ∪ seen); [exact H2|].
    unfold names. simpl. set_solver.
  - inversion HF as [|? ? Hev HF']; subst.
    destruct ev as [e|e|e]; simpl in *; try discriminate.
    + destruct H1 as [Hin H1]. split; [exact Hin|].
      apply IH; assumption.
    + destruct H1 as (Hnin & Hok & H1). repeat split; try assumption.
      apply IH; try assumption.
      replace (names evs1 ∪ ({[Name e]} ∪ seen))
        with (names (Rendered e :: evs1) ∪ seen); [exact H2|].
      unfold names. simpl. set_solver.
Qed.

Lemma explains_nil (st : walk) : explains tt st [] st None.
Proof.
  unfold explains. simpl. rewrite app_nil_r, append_empty.
  repeat split; try constructor. unfold names. simpl. set_solver.
Qed.

Lemma explains_app (st st1 st2 : walk) (evs1 evs2 : list event) (r : option Err) :
  explains tt st evs1 st1 None -> explains tt st1 evs2 st2 r ->
  explains tt st (evs1 ++ evs2) st2 r.
Proof.
  intros (T1 & S1 & R1 & A1 & O1) (T2 & S2 & R2 & A2 & O2).
  unfold explains. repeat split.
  - rewrite T2, T1. apply eq_sym, app_assoc.
  - rewrite S2, S1, names_app. set_solver.
  - rewrite R2, R1, output_app. apply append_assoc.
  - apply sound_app; try assumption. rewrite <- S1. exact A2.
  - simpl in O1. destruct r as [err|]; simpl in *.
    + destruct O2 as (evs0 & e & -> & F & E).
      exists (evs1 ++ evs0), e. rewrite app_assoc. repeat split; try assumption.
      apply Forall_app; auto.
    + apply Forall_app; auto.
Qed.

Lemma explains_skip (root : xmlTree) (st : walk) :
  Name root ∈ types st ->
  explains tt st [Skipped root] (note (Skipped root) st) None.
Proof.
  intros H. unfold explains, names. simpl. rewrite append_empty.
  repeat split; try assumption; [set_solver|]. repeat constructor.
Qed.

Lemma explains_fail (root : xmlTree) (st : walk) (text : string) (err : Err) :
  Name root ∉ types st -> tt root = (text, Some err) ->
  explains tt st [Failed root] (note (Failed root) (write text st)) (Some err).
Proof.
  intros H E. unfold explains, names. simpl. rewrite E. simpl.
  rewrite append_empty.
  repeat split; try assumption; try discriminate; [set_solver|].
  exists [], root. rewrite E. repeat split. constructor.
Qed.

Lemma explains_render (root : xmlTree) (st : walk) (text : string) :
  Name root ∉ types st -> tt root = (text, None) ->
  explains tt st [Rendered root]
    (note (Rendered root) (visit (Name root) (write text st))) None.
Proof.
  intros H E. unfold explains, names. simpl. rewrite E. simpl.
  rewrite append_empty.
  repeat split; try assumption; [set_solver|]. repeat constructor.
Qed.

Lemma explains_types_mono (st st' : walk) (evs : list event) (r : option Err) :
  explains tt st evs st' r -> types st ⊆ types st'.
Proof. intros (_ & S & _). rewrite S. set_solver. Qed.

Lemma closed_app (evs1 evs2 : list event) (T1 T2 : gset string) :
  closed evs1 T1 -> T1 ⊆ T2 -> closed evs2 T2 -> closed (evs1 ++ evs2) T2.
Proof.
  intros C1 Hsub C2 p c Hp Hc Hn. rewrite renderedNodes_app in Hp.
  apply in_app_or in Hp as [Hp|Hp].
  - apply Hsub. eapply C1; eassumption.
  - eapply C2; eassumption.
Qed.

Lemma rangeChildren_spec (cs : list xmlTree) :
  Forall (executeSpec tt) cs ->
  forall st st' r, rangeChildren (execute tt) cs st = (st', r) ->
  exists evs,
    explains tt st evs st' r
    /\ onChildren evs
    /\ (r = None ->
        closed evs (types st')
        /\ forall c, In c cs -> primitiveType c = false -> Name c ∈ types st').
Proof.
  induction 1 as [|c cs Hc _ IH]; intros st st' r E.
  - simpl in E. injection E as <- <-. exists []. split; [apply explains_nil|].
    split; [constructor|]. intros _. split.
    + intros p c' [].
    + intros c' [].
  - simpl in E. destruct (primitiveType c) eqn:P.
    + destruct (IH _ _ _ E) as (evs & X & OC & K). exists evs.
      split; [exact X|]. split; [exact OC|]. intros ->.
      destruct (K eq_refl) as [K1 K2]. split; [exact K1|].
      intros c' [<-|Hin] Hp; [congruence|auto].
    + destruct (execute tt c st) as [st1 [err|]] eqn:E1.
      * injection E as <- <-.
        destruct (Hc _ _ _ E1) as (ev & evs & X & N & OC & _).
        exists (ev :: evs). split; [exact X|].
        split; [|discriminate]. constructor; [rewrite N; exact P|exact OC].
      * destruct (Hc _ _ _ E1) as (ev & evs1 & X1 & N & OC1 & K1).
        destruct (IH _ _ _ E) as (evs2 & X2 & OC2 & K2).
        exists ((ev :: evs1) ++ evs2).
        split; [eapply explains_app; eassumption|].
        split.
        { apply Forall_app. split; [|exact OC2].
          constructor; [rewrite N; exact P|exact OC1]. }
        intros ->. destruct (K1 eq_refl) as [K1a K1b].
        destruct (K2 eq_refl) as [K2a K2b].
        pose proof (explains_types_mono _ _ _ _ X2) as M.
        split.
        { eapply closed_app; eassumption. }
        intros c' [<-|Hin] Hp; [apply M; exact K1a|auto].
Qed.

Lemma execute_spec (root : xmlTree) : executeSpec tt root.
Proof.
  induction root as [n a b c d cs IH] using xmlTree_ind.
  set (root := XmlTree n a b c d cs) in *.
  intros st st' r E. rewrite execute_eq in E.
  destruct (decide (Name root ∈ types st)) as [Hin|Hnin].
  - injection E as <- <-. exists (Skipped root), [].
    split; [apply explains_skip; exact Hin|]. split; [reflexivity|].
    split; [constructor|]. intros _. split.
    + simpl. exact Hin.
    + intros p c' [].
  - destruct (tt root) as [text [err|]] eqn:T.
    + injection E as <- <-. exists (Failed root), [].
      split; [apply explains_fail; assumption|]. split; [reflexivity|].
      split; [constructor|discriminate].
    + destruct (rangeChildren_spec _ IH _ _ _ E) as (evs & X & OC & K).
      exists (Rendered root), evs.
      pose proof (explains_render root st text Hnin T) as X0.
      split; [exact (explains_app _ _ _ _ _ _ X0 X)|].
      split; [reflexivity|]. split; [exact OC|].
      intros ->. destruct (K eq_refl) as [K1 K2].
      pose proof (explains_types_mono _ _ _ _ X) as M.
      split.
      * apply M. simpl. set_solver.
      * intros p c' Hp Hc Hprim. simpl in Hp. destruct Hp as [<-|Hp].
        -- apply K2; assumption.
        -- eapply K1; eassumption.
Qed.

Lemma rangeRoots_app (l1 l2 : list xmlTree) (st : walk) :
  rangeRoots tt (l1 ++ l2) st =
  match rangeRoots tt l1 st with
  | (st1, Some err) => (st1, Some err)
  | (st1, None) => rangeRoots tt l2 st1
  end.
Proof.
  revert st. induction l1 as [|e l1 IH]; intros st; simpl; [reflexivity|].
  destruct (execute tt e st) as [st1 [err|]]; [reflexivity|apply IH].
Qed.

(** What the loop over the roots does. *)
Lemma rangeRoots_spec (roots : list xmlTree) (st st' : walk) (r : option Err) :
  rangeRoots tt roots st = (st', r) ->
  exists evs,
    explains tt st evs st' r
    /\ Forall (fun ev => In (eventNode ev) roots
                         \/ primitiveType (eventNode ev) = false) evs
    /\ (r = None ->
        closed evs (types st')
        /\ forall e, In e roots -> Name e ∈ types st').
Proof.
  revert st. induction roots as [|e roots IH]; intros st E; simpl in E.
  - injection E as <- <-. exists []. split; [apply explains_nil|].
    split; [constructor|]. intros _. split; [intros p c []|intros e []].
  - destruct (execute tt e st) as [st1 [err|]] eqn:E1.
    + injection E as <- <-.
      destruct (execute_spec e _ _ _ E1) as (ev & evs & X & N & OC & _).
      exists (ev :: evs). split; [exact X|]. split; [|discriminate].
      constructor; [left; rewrite N; left; reflexivity|].
      eapply List.Forall_impl; [|exact OC]. intros; right; assumption.
    + destruct (execute_spec e _ _ _ E1) as (ev & evs1 & X1 & N & OC1 & K1).
      destruct (IH _ E) as (evs2 & X2 & OC2 & K2).
      exists ((ev :: evs1) ++ evs2).
      split; [eapply explains_app; eassumption|]. split.
      { apply Forall_app. split.
        - constructor; [left; rewrite N; left; reflexivity|].
          eapply List.Forall_impl; [|exact OC1]. intros; right; assumption.
        - eapply List.Forall_impl; [|exact OC2].
          intros ev' [H|H]; [left; right; exact H|right; exact H]. }
      intros ->. destruct (K1 eq_refl) as [K1a K1b].
      destruct (K2 eq_refl) as [K2a K2b].
      pose proof (explains_types_mono _ _ _ _ X2) as M.
      split; [eapply closed_app; eassumption|].
      intros e' [<-|Hin]; [apply M; exact K1a|auto].
Qed.

Lemma sound_split (seen : gset string) (evs1 evs2 : list event) :
  sound tt seen (evs1 ++ evs2) -> Forall (fun ev => isFailed ev = false) evs1 ->
  sound tt seen evs1 /\ sound tt (names evs1 ∪ seen) evs2.
Proof.
  revert seen. induction evs1 as [|ev evs1 IH]; intros seen H HF.
  - simpl in *. split; [exact I|].
    replace (names [] ∪ seen) with seen; [exact H|].
    unfold names. simpl. set_solver.
  - inversion HF as [|? ? Hev HF']; subst.
    destruct ev as [e|e|e]; simpl in *; try discriminate.
    + destruct H as [Hin H]. destruct (IH _ H HF') as [A B]. auto.
    + destruct H as (Hnin & Hok & H). destruct (IH _ H HF') as [A B].
      repeat split; try assumption.
      replace (names (Rendered e :: evs1) ∪ seen)
        with (names evs1 ∪ ({[Name e]} ∪ seen)); [exact B|].
      unfold names. simpl. set_solver.
Qed.

Lemma names_spec (evs : list event) (n : string) :
  n ∈ names evs <-> In n (map Name (renderedNodes evs)).
Proof. unfold names. rewrite elem_of_list_to_set, list_elem_of_In. reflexivity. Qed.

(** A sound log renders no name twice, and no name that was visited. *)
Lemma sound_NoDup (seen : gset string) (evs : list event) :
  sound tt seen evs ->
  List.NoDup (map Name (renderedNodes evs))
  /\ (forall n, In n (map Name (renderedNodes evs)) -> n ∉ seen)
  /\ (forall d, In d (renderedNodes evs) -> snd (tt d) = None).
Proof.
  revert seen. induction evs as [|[e|e|e] evs IH]; intros seen H; simpl in *.
  - split; [constructor|]. split; intros ? [].
  - destruct H as [_ H]. apply IH, H.
  - destruct H as (Hnin & Hok & H). destruct (IH _ H) as (A & B & C).
    split; [|split].
    + constructor; [|exact A]. intros Hin. apply B in Hin. set_solver.
    + intros n [<-|Hin]; [exact Hnin|]. apply B in Hin. set_solver.
    + intros d [<-|Hin]; auto.
  - destruct H as (_ & _ & ->). simpl.
    split; [constructor|]. split; intros ? [].
Qed.

Lemma renderedNodes_In (evs : list event) (e : xmlTree) :
  In e (renderedNodes evs) <-> In (Rendered e) evs.
Proof.
  induction evs as [|[d|d|d] evs IH]; simpl.
  - tauto.
  - rewrite IH. split; [auto|]. intros [H|H]; [discriminate|exact H].
  - rewrite IH. split.
    + intros [->|H]; auto.
    + intros [[= ->]|H]; auto.
  - rewrite IH. split; [auto|]. intros [H|H]; [discriminate|exact H].
Qed.

End Walker.

(** C6, as the code has it.  In one run (the walk over the roots from the
    empty visited set) at most one declaration is rendered per raw Name,
    the buffer holding the text of the nodes rendered; a root whose Name an
    earlier root carries is skipped: its call changes neither the set nor
    the buffer, renders nothing and enters no child; when the walk
    succeeds, the Name of every root has exactly one rendered node, and a
    root whose Name is not visited at its turn is the node rendered for
    it. *)
Theorem one_declaration_per_name (tt : Template) (roots : list xmlTree)
    (h : string) (st' : walk) (r : option Err) :
  rangeRoots tt roots (Walk ∅ h []) = (st', r) ->
  List.NoDup (map Name (renderedNodes (trace st')))
  /\ res st' = h +:+ output tt (trace st')
  /\ (forall l1 a l2 b l3 st1,
        roots = l1 ++ a :: l2 ++ b :: l3 -> Name a = Name b ->
        rangeRoots tt (l1 ++ a :: l2) (Walk ∅ h []) = (st1, None) ->
        execute tt b st1 = (note (Skipped b) st1, None))
  /\ (r = None ->
      forall e, In e roots ->
        count_occ string_dec (map Name (renderedNodes (trace st'))) (Name e) = 1)
  /\ (r = None ->
      forall l1 a l2 st1,
        roots = l1 ++ a :: l2 ->
        rangeRoots tt l1 (Walk ∅ h []) = (st1, None) ->
        Name a ∉ types st1 ->
        In a (renderedNodes (trace st'))).
Proof.
  intros E.
  destruct (rangeRoots_spec tt _ _ _ _ E) as (evs & X & _ & K).
  destruct X as (T & S & R & A & O). simpl in T, S, R, A. subst evs.
  destruct (sound_NoDup tt _ _ A) as (ND & _ & _).
  split; [exact ND|]. split; [exact R|]. split; [|split].
  - intros l1 a l2 b l3 st1 _ Hab E1.
    destruct (rangeRoots_spec tt _ _ _ _ E1) as (evs1 & _ & _ & K1).
    destruct (K1 eq_refl) as [_ K1b].
    assert (Hin : Name b ∈ types st1).
    { rewrite <- Hab. apply K1b. apply in_or_app. right. left. reflexivity. }
    rewrite execute_eq. destruct (decide (Name b ∈ types st1)); [reflexivity|].
    contradiction.
  - intros -> e He. destruct (K eq_refl) as [_ Kb].
    apply (proj1 (NoDup_count_occ' string_dec _) ND).
    apply names_spec. specialize (Kb e He). rewrite S in Kb. set_solver.
  - intros -> l1 a l2 st1 -> E1 Hnin.
    rewrite rangeRoots_app, E1 in E. simpl in E.
    destruct (execute tt a st1) as [st2 [err|]] eqn:E2; [discriminate|].
    destruct (execute_spec tt a _ _ _ E2) as (ev & evs2 & X2 & N & _ & _).
    destruct (rangeRoots_spec tt _ _ _ _ E) as (evs3 & X3 & _ & _).
    destruct X2 as (T2 & _ & _ & A2 & O2). destruct X3 as (T3 & _).
    apply renderedNodes_In. rewrite T3, T2.
    apply in_or_app. left. apply in_or_app. right. left.
    simpl in O2. inversion O2 as [|? ? F _]; subst.
    destruct ev as [d|d|d]; simpl in *; try discriminate.
    + destruct A2 as [Hin _]. contradiction.
    + reflexivity.
Qed.

Lemma one_declaration_per_name_witness :
  let a := XmlTree "a" "a" false false [] [] in
  let b := XmlTree "a" "a" false false [XmlAttrib "k" "int"] [a] in
  let run := rangeRoots (elemTemplate "" false) [a; b] (Walk ∅ "" []) in
  List.NoDup (map Name (renderedNodes (trace (fst run))))
  /\ count_occ string_dec (map Name (renderedNodes (trace (fst run)))) "a" = 1.
Proof.
  intros a b run.
  destruct (one_declaration_per_name (elemTemplate "" false) [a; b] ""
              (fst run) (snd run)) as (ND & _ & _ & C & _).
  - apply surjective_pairing.
  - split; [exact ND|].
    apply (C (eq_refl : snd run = None) a). left. reflexivity.
Defined.

(** C6, as stated, fails: of two roots that share a Name the first is not
    always the one rendered.  Here the Name a is visited under the root p
    before the roots a1 and a2 are reached, and both are skipped. *)
Lemma first_root_not_rendered :
  let a := XmlTree "a" "a" false false [] [] in
  let p := XmlTree "p" "p" false false [] [a] in
  let a1 := XmlTree "a" "a" false false [XmlAttrib "k" "int"] [] in
  let a2 := XmlTree "a" "a" true false [] [] in
  let run := rangeRoots (elemTemplate "" false) [p; a1; a2] (Walk ∅ "" []) in
  Name a1 = Name a2
  /\ snd run = None
  /\ trace (fst run) = [Rendered p; Rendered a; Skipped a1; Skipped a2]
  /\ ~ In a1 (renderedNodes (trace (fst run))).
Proof.
  intros a p a1 a2 run. split; [reflexivity|]. split; [vm_compute; reflexivity|].
  split; [vm_compute; reflexivity|].
  intros H. vm_compute in H. destruct H as [H|[H|[]]]; discriminate.
Qed.

(** C10.  When the rendering of a node fails, the walk ends there: the
    failure is the last event, the failed node's Name is not in the visited
    set, and the set holds, besides what it held at the start, exactly the
    names of the nodes rendered before the failure, each of them rendered
    with success. *)
Theorem failed_node_not_visited (tt : Template) (roots : list xmlTree)
    (st st' : walk) (err : Err) :
  rangeRoots tt roots st = (st', Some err) ->
  exists evs0 e,
    trace st' = trace st ++ (evs0 ++ [Failed e])
    /\ snd (tt e) = Some err
    /\ (Name e ∉ types st')
    /\ Forall (fun ev => isFailed ev = false) evs0
    /\ types st' = names evs0 ∪ types st
    /\ (forall d, In d (renderedNodes evs0) -> snd (tt d) = None).
Proof.
  intros E.
  destruct (rangeRoots_spec tt _ _ _ _ E) as (evs & X & _ & _).
  destruct X as (T & S & _ & A & evs0 & e & -> & F & Ee).
  exists evs0, e.
  destruct (sound_split tt _ _ _ A F) as [A0 A1].
  simpl in A1. destruct A1 as (Hnin & _ & _).
  assert (S' : types st' = names evs0 ∪ types st).
  { rewrite S, names_app. unfold names at 2. simpl. set_solver. }
  repeat split; try assumption.
  - rewrite S'. exact Hnin.
  - apply (sound_NoDup tt _ _ A0).
Qed.

Lemma failed_node_not_visited_witness :
  let leaf := XmlTree "leaf" "leaf" false false [] [] in
  let bad := XmlTree "bad" "bad" false false [] [leaf] in
  let top := XmlTree "top" "top" false false [] [bad; leaf] in
  exists evs0 e,
    trace (fst (rangeRoots (failingOn "bad") [top; leaf] (Walk ∅ "" [])))
      = [] ++ (evs0 ++ [Failed e])
    /\ Name e ∉ types (fst (rangeRoots (failingOn "bad") [top; leaf] (Walk ∅ "" []))).
Proof.
  intros leaf bad top.
  destruct (failed_node_not_visited (failingOn "bad") [top; leaf] (Walk ∅ "" [])
              (fst (rangeRoots (failingOn "bad") [top; leaf] (Walk ∅ "" [])))
              "template: failed")
    as (evs0 & e & T & _ & N & _).
  - vm_compute. reflexivity.
  - exists evs0, e. split; [exact T|exact N].
Defined.

Section RootsAreRendered.

Variable tt : Template.

Lemma rangeChildren_trace (cs : list xmlTree) (st st' : walk) (r : option Err) :
  rangeChildren (execute tt) cs st = (st', r) ->
  exists evs, trace st' = trace st ++ evs.
Proof.
  intros E.
  assert (F : Forall (executeSpec tt) cs)
    by (apply List.Forall_forall; intros c _; apply execute_spec).
  destruct (rangeChildren_spec tt cs F _ _ _ E) as (evs & X & _).
  exists evs. apply X.
Qed.

(** A loop over children that ends without error has called execute on
    every child that is not primitive. *)
Lemma rangeChildren_calls (cs : list xmlTree) :
  forall st st', rangeChildren (execute tt) cs st = (st', None) ->
  exists evs, trace st' = trace st ++ evs
    /\ forall c, In c cs -> primitiveType c = false ->
                 exists ev, In ev evs /\ eventNode ev = c.
Proof.
  induction cs as [|c cs IH]; intros st st' E; simpl in E.
  - injection E as <-. exists []. rewrite app_nil_r. split; [reflexivity|].
    intros c [].
  - destruct (primitiveType c) eqn:P.
    + destruct (IH _ _ E) as (evs & T & K). exists evs. split; [exact T|].
      intros c' [<-|Hin] P'; [congruence|auto].
    + destruct (execute tt c st) as [st1 [err|]] eqn:E1; [discriminate|].
      destruct (execute_spec tt c _ _ _ E1) as (ev & evs1 & X & N & _).
      destruct X as (T1 & _).
      destruct (IH _ _ E) as (evs2 & T2 & K).
      exists ((ev :: evs1) ++ evs2).
      split; [rewrite T2, T1; apply eq_sym, app_assoc|].
      intros c' [<-|Hin] P'.
      * exists ev. split; [left; reflexivity|exact N].
      * destruct (K c' Hin P') as (ev' & Hev & Nev).
        exists ev'. split; [apply in_or_app; right; exact Hev|exact Nev].
Qed.

(** A call of execute on a node whose name is not visited renders the
    node, primitive or not, and on success has called execute on its
    non-primitive children. *)
Lemma execute_renders (a : xmlTree) (st1 st2 : walk) (r2 : option Err) :
  execute tt a st1 = (st2, r2) -> Name a ∉ types st1 ->
  exists evs2,
    trace st2 = trace st1 ++ evs2
    /\ (In (Rendered a) evs2 \/ In (Failed a) evs2)
    /\ (r2 = None ->
        In (Rendered a) evs2
        /\ forall c, In c (Children a) -> primitiveType c = false ->
                     exists ev, In ev evs2 /\ eventNode ev = c).
Proof.
  intros E N. rewrite execute_eq in E.
  destruct (decide (Name a ∈ types st1)); [contradiction|].
  destruct (tt a) as [text [err|]].
  - injection E as <- <-. exists [Failed a]. split; [reflexivity|].
    split; [right; left; reflexivity|discriminate].
  - destruct (rangeChildren_trace _ _ _ _ E) as (evs & T). simpl in T.
    exists (Rendered a :: evs).
    split; [rewrite T, <- app_assoc; reflexivity|].
    split; [left; left; reflexivity|].
    intros ->. split; [left; reflexivity|].
    destruct (rangeChildren_calls _ _ _ E) as (evs' & T' & K). simpl in T'.
    rewrite T in T'. apply app_inv_head in T'. subst evs'.
    intros c Hc P. destruct (K c Hc P) as (ev & Hev & Nev).
    exists ev. split; [right; exact Hev|exact Nev].
Qed.

End RootsAreRendered.

(** C1, as the code has it.  Every node the walker calls execute on, and so
    every node it renders or whose children it enters, is a root of the run
    or is not primitive: a primitive node is passed over where it is a
    child.  A root whose Name is not visited at its turn is rendered,
    primitive or not (the rendering succeeds or is the failure that ends
    the run), and when the run succeeds execute was called on each of its
    non-primitive children.  The text added to the buffer is what the
    calls logged wrote. *)
Theorem primitive_only_as_root (tt : Template) (roots : list xmlTree)
    (st st' : walk) (r : option Err) :
  rangeRoots tt roots st = (st', r) ->
  exists evs,
    trace st' = trace st ++ evs
    /\ res st' = res st +:+ output tt evs
    /\ (forall ev, In ev evs -> primitiveType (eventNode ev) = true ->
                   In (eventNode ev) roots)
    /\ (forall l1 a l2 st1,
          roots = l1 ++ a :: l2 ->
          rangeRoots tt l1 st = (st1, None) ->
          Name a ∉ types st1 ->
          (In (Rendered a) evs \/ In (Failed a) evs)
          /\ (r = None ->
              In (Rendered a) evs
              /\ forall c, In c (Children a) -> primitiveType c = false ->
                           exists ev, In ev evs /\ eventNode ev = c)).
Proof.
  intros E.
  destruct (rangeRoots_spec tt _ _ _ _ E) as (evs & X & F & _).
  exists evs. destruct X as (T & _ & R & _).
  split; [exact T|]. split; [exact R|]. split.
  - intros ev Hin P. rewrite List.Forall_forall in F.
    destruct (F ev Hin) as [H|H]; [exact H|congruence].
  - intros l1 a l2 st1 -> E1 N.
    destruct (rangeRoots_spec tt _ _ _ _ E1) as (evs1 & (T1 & _) & _).
    rewrite rangeRoots_app, E1 in E. simpl in E.
    destruct (execute tt a st1) as [st2 r2] eqn:E2.
    destruct (execute_renders tt a _ _ _ E2 N) as (evs2 & T2 & A & K).
    destruct r2 as [err|].
    + injection E as <- <-.
      assert (Ev : evs = evs1 ++ evs2).
      { rewrite T2, T1, <- app_assoc in T. apply app_inv_head in T. auto. }
      subst evs. split; [|discriminate].
      destruct A as [A|A]; [left|right]; apply in_or_app; right; exact A.
    + destruct (rangeRoots_spec tt _ _ _ _ E) as (evs3 & (T3 & _) & _).
      assert (Ev : evs = evs1 ++ evs2 ++ evs3).
      { rewrite T3, T2, T1, <- !app_assoc in T. apply app_inv_head in T. auto. }
      subst evs. destruct (K eq_refl) as [K1 K2].
      assert (In1 : In (Rendered a) (evs1 ++ evs2 ++ evs3)).
      { apply in_or_app. right. apply in_or_app. left. exact K1. }
      split; [left; exact In1|]. intros _. split; [exact In1|].
      intros c Hc P. destruct (K2 c Hc P) as (ev & Hev & Nev).
      exists ev. split; [|exact Nev].
      apply in_or_app. right. apply in_or_app. left. exact Hev.
Qed.

Lemma primitive_only_as_root_witness :
  let c := XmlTree "y" "T" false false [] [] in
  let s := XmlTree "s" "string" false false [] [] in
  let p := XmlTree "x" "string" false false [] [s; c] in
  exists evs,
    trace (fst (rangeRoots (elemTemplate "" false) [p] (Walk ∅ "" []))) = [] ++ evs
    /\ (forall ev, In ev evs -> primitiveType (eventNode ev) = true ->
                   In (eventNode ev) [p])
    /\ In (Rendered p) evs
    /\ exists ev, In ev evs /\ eventNode ev = c.
Proof.
  intros c s p.
  destruct (primitive_only_as_root (elemTemplate "" false) [p] (Walk ∅ "" [])
              (fst (rangeRoots (elemTemplate "" false) [p] (Walk ∅ "" [])))
              (snd (rangeRoots (elemTemplate "" false) [p] (Walk ∅ "" [])))
              (surjective_pairing _))
    as (evs & T & _ & F & K).
  exists evs. split; [exact T|]. split; [exact F|].
  destruct (K [] p [] (Walk ∅ "" []) eq_refl eq_refl) as (_ & K2).
  - simpl. set_solver.
  - destruct (K2 eq_refl) as [K3 K4].
    split; [exact K3|]. apply (K4 c); [right; left; reflexivity|reflexivity].
Defined.

(** C1, as stated, fails: a primitive node passed as a root is rendered (a
    declaration `type x struct` is written for it) and its children are
    entered. *)
Lemma primitive_root_is_rendered :
  let c := XmlTree "y" "T" false false [] [] in
  let p := XmlTree "x" "string" false false [] [c] in
  let st := fst (rangeRoots (elemTemplate "" false) [p] (Walk ∅ "" [])) in
  primitiveType p = true
  /\ trace st = [Rendered p; Rendered c]
  /\ Contains (res st) "type x struct {" = true.
Proof. intros c p st. repeat split; vm_compute; reflexivity. Qed.

(** ** The type-name resolver *)

(** C2, as the code has it.  With a non-empty prefix, [typeName] returns a
    primitive name unchanged and otherwise normalizes the prefix followed
    by the title-cased name (the name is title-cased, the prefix is not),
    the whole being title-cased first when exported is set. *)
Theorem typeName_prefixed (prefix name : string) (exported : bool) :
  prefix <> "" ->
  typeName prefix exported name =
    if primitiveName name then name
    else lint (if exported then Title (prefix +:+ Title name)
               else prefix +:+ Title name).
Proof.
  intros H. unfold typeName. destruct (primitiveName name); [reflexivity|].
  destruct (String.eqb prefix "") eqn:E.
  - apply String.eqb_eq in E. contradiction.
  - destruct exported; reflexivity.
Qed.

Lemma typeName_prefixed_witness :
  typeName "x" false "foo" = lint ("x" +:+ Title "foo")
  /\ typeName "x" true "foo" = lint (Title ("x" +:+ Title "foo"))
  /\ typeName "x" true "int" = "int".
Proof.
  split; [|split].
  - apply (typeName_prefixed "x" "foo" false). discriminate.
  - apply (typeName_prefixed "x" "foo" true). discriminate.
  - apply (typeName_prefixed "x" "int" true). discriminate.
Defined.

(** C2, as stated, fails: with the prefix x and the name foo the code gives
    xFoo (prefix, then the title-cased name), not Xfoo (the title-cased
    prefix, then the name). *)
Lemma typeName_titles_the_name :
  ~ (forall prefix name : string,
       primitiveName name = false -> prefix <> "" ->
       typeName prefix false name = lint (Title prefix +:+ name)).
Proof.
  intros H. specialize (H "x" "foo" eq_refl ltac:(discriminate)).
  vm_compute in H. discriminate.
Qed.

(** ** The templates, line by line *)

Lemma append_String (c : ascii) (a b : string) :
  String c a +:+ b = String c (a +:+ b).
Proof. reflexivity. Qed.

Lemma append_nil_l (b : string) : "" +:+ b = b.
Proof. reflexivity. Qed.

(** Compute the closed format of every printf of the goal. *)
Ltac eval_formats :=
  repeat match goal with
  | |- context [Sprintf ?f ?args] =>
      progress (let f' := eval vm_compute in f in
                change (Sprintf f args) with (Sprintf f' args))
  end.

Ltac str_norm :=
  repeat (rewrite ?append_assoc, ?append_String, ?append_nil_l, ?append_empty).

Ltac printf := eval_formats; cbn [Sprintf]; str_norm.

Lemma attr_line (a : xmlAttrib) :
  attr a = attrField (lintTitle (AttrName a)) (lint (AttrType a)) (AttrName a).
Proof. unfold attr, attrField, q, nl, str. printf. reflexivity. Qed.

Lemma child_line (prefix : string) (exported : bool) (c : xmlTree) :
  child prefix exported c =
  childField (lintTitle (Name c))
    ((if List_ c then "[]" else "") +:+ typeName prefix exported (fieldType c))
    (Name c).
Proof.
  unfold child, childField, q, nl, str. destruct (List_ c); printf; reflexivity.
Qed.

Lemma cdata_line (e : xmlTree) :
  cdata e = cdataField (lintTitle (Name e)) (lint (Type_ e)).
Proof. unfold cdata, cdataField, q, nl, str. printf. reflexivity. Qed.

Lemma elem_lines (prefix : string) (exported : bool) (e : xmlTree) :
  elem prefix exported e =
  declHead (typeName prefix exported (Name e))
  +:+ Join (map attr (Attribs e))
  +:+ Join (map (child prefix exported) (Children e))
  +:+ " "
  +:+ (if Cdata e then cdata e else "")
  +:+ " }" +:+ nl.
Proof. unfold elem, declHead, nl, str. printf. reflexivity. Qed.

Lemma primitiveName_cases (t : string) :
  primitiveName t = true ->
  t = "bool" \/ t = "string" \/ t = "int" \/ t = "float64" \/ t = "time.Time".
Proof.
  unfold primitiveName, primitiveNames. simpl. intros H.
  repeat (apply orb_true_iff in H as [H|H];
          [apply String.eqb_eq in H; tauto|]).
  discriminate.
Qed.

Lemma lint_primitive (t : string) : primitiveName t = true -> lint t = t.
Proof.
  intros H. apply primitiveName_cases in H.
  destruct H as [->|[->|[->|[->| ->]]]]; reflexivity.
Qed.

(** C3, as the code has it.  In the declaration of a node the line of an
    attribute has the attribute's normalized title-cased name, the type
    [lint] gives for the attribute's raw Type (the normalizer alone, with
    neither the prefix nor the export title-casing of [typeName]) and the
    tag of the attribute's raw name; the type is the one [typeName] gives
    when the raw Type is primitive, and for every Type when the prefix is
    empty and exported is not set. *)
Theorem attr_field_type (prefix : string) (exported : bool) (e : xmlTree) :
  elem prefix exported e =
    declHead (typeName prefix exported (Name e))
    +:+ Join (map (fun a => attrField (lintTitle (AttrName a))
                                      (lint (AttrType a)) (AttrName a))
                  (Attribs e))
    +:+ Join (map (fun c => childField (lintTitle (Name c))
                              ((if List_ c then "[]" else "")
                               +:+ typeName prefix exported (fieldType c))
                              (Name c))
                  (Children e))
    +:+ " "
    +:+ (if Cdata e then cdataField (lintTitle (Name e)) (lint (Type_ e)) else "")
    +:+ " }" +:+ nl
  /\ Forall (fun t => lint t = typeName prefix exported t) primitiveNames
  /\ (forall t, lint t = typeName "" false t).
Proof.
  split; [|split].
  - rewrite elem_lines.
    rewrite (map_ext attr _ attr_line).
    rewrite (map_ext (child prefix exported) _ (child_line prefix exported)).
    rewrite cdata_line. reflexivity.
  - repeat constructor.
  - intros t. unfold typeName. destruct (primitiveName t) eqn:P; [|reflexivity].
    apply lint_primitive, P.
Qed.

(** C3, as stated, fails: with the prefix P an attribute of type myType is
    declared with the type myType, where [typeName] gives PMyType. *)
Lemma attr_type_not_typeName :
  ~ (forall (prefix : string) (exported : bool) (a : xmlAttrib),
       attr a = attrField (lintTitle (AttrName a))
                          (typeName prefix exported (AttrType a)) (AttrName a)).
Proof.
  intros H. specialize (H "P" false (XmlAttrib "ref" "myType")).
  vm_compute in H. discriminate.
Qed.

(** ** The example of the specification *)

(** C4, as the code has it.  On the root Order (attribute id of type int,
    repeated child line-item of type LineItem), with no prefix and exported
    not set, the walk renders two declarations, Order and lineItem; the
    declaration of Order has the attribute field ID of type int tagged id
    and the child field LineItem (not LineItems) of type []LineItem tagged
    line-item. *)
Theorem order_example :
  let run := rangeRoots (elemTemplate "" false) [order] (Walk ∅ "" []) in
  prepareTemplates "" false = inr (elemTemplate "" false)
  /\ snd run = None
  /\ trace (fst run) = [Rendered order; Rendered lineItem]
  /\ res (fst run) =
       (declHead "Order"
        +:+ attrField "ID" "int" "id"
        +:+ childField "LineItem" "[]LineItem" "line-item"
        +:+ "  }" +:+ nl)
       +:+ (declHead "lineItem" +:+ "  }" +:+ nl).
Proof. repeat split; vm_compute; reflexivity. Qed.

(** C4, as stated, fails: the declaration of Order has no field LineItems;
    the identifier occurs nowhere in the text of the run. *)
Lemma order_example_no_LineItems :
  Contains (elem "" false order)
           (childField "LineItems" "[]LineItem" "line-item") = false
  /\ Contains (res (fst (rangeRoots (elemTemplate "" false) [order] (Walk ∅ "" []))))
              "LineItems" = false.
Proof. split; vm_compute; reflexivity. Qed.

(** ** Character data *)

Lemma length_append (a b : string) :
  String.length (a +:+ b) = String.length a + String.length b.
Proof.
  induction a as [|c a IH]; [reflexivity|].
  rewrite append_String. simpl. rewrite IH. reflexivity.
Qed.

Lemma dropBytes_append (a b : string) : dropBytes (String.length a) (a +:+ b) = b.
Proof.
  induction a as [|c a IH]; [reflexivity|].
  rewrite append_String. simpl. exact IH.
Qed.

Lemma hasSuffix_append (a b : string) : hasSuffix (a +:+ b) b = true.
Proof.
  unfold hasSuffix. rewrite length_append.
  replace (String.length a + String.length b - String.length b)
    with (String.length a) by lia.
  rewrite dropBytes_append. apply String.eqb_refl.
Qed.

Lemma hasSuffix_inv (s suffix : string) :
  (exists pre, s = pre +:+ suffix) -> hasSuffix s suffix = true.
Proof. intros [pre ->]. apply hasSuffix_append. Qed.

(** The walk with the templates of the source never fails. *)
Lemma rangeRoots_elem_ok (prefix : string) (exported : bool)
    (roots : list xmlTree) (st : walk) :
  snd (rangeRoots (elemTemplate prefix exported) roots st) = None.
Proof.
  destruct (rangeRoots (elemTemplate prefix exported) roots st) as [st' [err|]] eqn:E;
    [|reflexivity].
  destruct (rangeRoots_spec _ _ _ _ _ E) as (evs & X & _).
  destruct X as (_ & _ & _ & _ & evs0 & e & _ & _ & H). discriminate.
Qed.

(** C7, as the code has it.  A node with Cdata set is never primitive, so
    the walker calls execute on it where it is a root and where it is a
    child of a rendered node, and a declaration is rendered under its Name
    (its own, unless a node of that Name was rendered before it); its
    declaration ends with the character-data field, whose type is what
    [lint] gives for the node's Type, which is the raw Type when that names
    a primitive. *)
Theorem cdata_node_declared (prefix : string) (exported : bool)
    (roots : list xmlTree) (h : string) (e : xmlTree) :
  Cdata e = true ->
  let run := rangeRoots (elemTemplate prefix exported) roots (Walk ∅ h []) in
  primitiveType e = false
  /\ snd run = None
  /\ (In e roots
      \/ (exists p, In p (renderedNodes (trace (fst run))) /\ In e (Children p)) ->
      exists d, In d (renderedNodes (trace (fst run))) /\ Name d = Name e)
  /\ hasSuffix (elem prefix exported e)
               (cdataField (lintTitle (Name e)) (lint (Type_ e)) +:+ " }" +:+ nl)
     = true
  /\ (primitiveName (Type_ e) = true -> lint (Type_ e) = Type_ e).
Proof.
  intros C run.
  assert (P : primitiveType e = false) by (unfold primitiveType; rewrite C; reflexivity).
  pose proof (rangeRoots_elem_ok prefix exported roots (Walk ∅ h [])) as OK.
  fold run in OK.
  split; [exact P|]. split; [exact OK|]. split; [|split].
  - intros H.
    destruct (rangeRoots_spec (elemTemplate prefix exported) roots (Walk ∅ h [])
                (fst run) (snd run) (surjective_pairing run))
      as (evs & X & _ & K).
    destruct X as (T & S & _). simpl in T, S. rewrite <- T in *.
    destruct (K OK) as [K1 K2].
    assert (N : Name e ∈ types (fst run)).
    { destruct H as [H|(p & Hp & Hc)]; [apply K2, H|].
      apply (K1 p e Hp Hc P). }
    rewrite S in N. assert (N' : Name e ∈ names (trace (fst run))) by set_solver.
    apply names_spec, in_map_iff in N' as (d & Hd & Hin). eauto.
  - rewrite elem_lines, C, cdata_line. str_norm.
    apply hasSuffix_inv.
    exists (declHead (typeName prefix exported (Name e))
            +:+ Join (map attr (Attribs e))
            +:+ Join (map (child prefix exported) (Children e)) +:+ " ").
    str_norm. reflexivity.
  - apply lint_primitive.
Qed.

Lemma cdata_node_declared_witness :
  let v := XmlTree "price" "float64" false true [] [] in
  let top := XmlTree "top" "top" false false [] [v] in
  let run := rangeRoots (elemTemplate "" false) [top] (Walk ∅ "" []) in
  (exists d, In d (renderedNodes (trace (fst run))) /\ Name d = "price")
  /\ hasSuffix (elem "" false v) (cdataField "Price" "float64" +:+ " }" +:+ nl) = true.
Proof.
  intros v top run.
  destruct (cdata_node_declared "" false [top] "" v eq_refl) as (_ & _ & D & S & _).
  split; [|exact S].
  apply D. right. exists top. split; [|left; reflexivity].
  vm_compute. left. reflexivity.
Defined.

(** C7, as stated, fails: the character-data field of a node of type
    my_type is declared with the type myType, not with the raw Type; and a
    node with Cdata set whose Name is visited is skipped, with no
    declaration of its own. *)
Lemma cdata_type_not_raw :
  let v := XmlTree "v" "my_type" false true [] [] in
  let a := XmlTree "n" "n" false false [] [] in
  let b := XmlTree "n" "string" false true [] [] in
  Cdata v = true
  /\ hasSuffix (elem "" false v)
               (cdataField (lintTitle (Name v)) (Type_ v) +:+ " }" +:+ nl) = false
  /\ Cdata b = true
  /\ trace (fst (rangeRoots (elemTemplate "" false) [a; b] (Walk ∅ "" [])))
     = [Rendered a; Skipped b].
Proof. intros v a b. repeat split; vm_compute; reflexivity. Qed.

(** ** Failures of a run *)

Section RunFailures.

Variable Writer : Type.
Variable Write : Writer -> string -> Writer * option Err.
Variable Process : string -> Err + string.
Variable prepare : string -> bool -> Err + Template.


End RunFailures.


(** * Further properties of the normalizer *)

Section Rewriting.

Variable pairs : list (string * string).
Hypothesis pairs_ok : tableOk pairs = true.

Lemma dropBytes_empty (n : nat) : dropBytes n "" = "".
Proof. destruct n; reflexivity. Qed.

(** One pass of the replacer rewrites its input. *)
Lemma Replace_from_rewrites (n : nat) (s : string) :
  rewrites pairs (dropBytes n s) (Replace_from pairs n s).
Proof.
  revert n. induction s as [|c t IH]; intros n.
  - rewrite dropBytes_empty. destruct n; constructor.
  - destruct n as [|k]; [|apply IH].
    simpl. destruct (lookup pairs (String c t)) as [[old new]|] eqn:H.
    + destruct (lookup_found pairs pairs_ok _ _ _ H) as (Hs & Hne & _).
      apply lookup_In in H as [Hin _].
      rewrite Hs. destruct old as [|a old]; [congruence|].
      simpl in *. rewrite Nat.sub_0_r.
      change (rewrites pairs (String a old +:+ dropBytes (String.length old) t)
                (new +:+ Replace_from pairs (String.length old) t)).
      apply rewrites_pair; [exact Hin|apply IH].
    + apply rewrites_copy. apply (IH 0).
Qed.

Lemma Replace_rewrites (s : string) : rewrites pairs s (Replace pairs s).
Proof. apply (Replace_from_rewrites 0 s). Qed.

End Rewriting.

Section Measures.

Lemma count_append (c : ascii) (a b : string) :
  count c (a +:+ b) = count c a + count c b.
Proof.
  induction a as [|d a IH]; [reflexivity|].
  rewrite append_String. simpl. rewrite IH. lia.
Qed.

Lemma count_has (c : ascii) (s : string) : has c s = false <-> count c s = 0.
Proof.
  induction s as [|d s IH]; simpl; [tauto|].
  destruct (Ascii.eqb d c); simpl; [split; [discriminate|lia]|exact IH].
Qed.

Lemma upper_append (a b : string) : upper (a +:+ b) = upper a +:+ upper b.
Proof.
  induction a as [|d a IH]; [reflexivity|].
  rewrite append_String. simpl. rewrite IH. reflexivity.
Qed.

Lemma length_Remove (c : ascii) (s : string) :
  String.length (Remove c s) + count c s = String.length s.
Proof.
  induction s as [|d s IH]; simpl; [reflexivity|].
  destruct (Ascii.eqb d c); simpl; lia.
Qed.

Lemma count_Remove (c d : ascii) (s : string) :
  Ascii.eqb d c = false -> count d (Remove c s) = count d s.
Proof.
  intros N. induction s as [|e s IH]; simpl; [reflexivity|].
  destruct (Ascii.eqb e c) eqn:E; simpl; rewrite IH; [|reflexivity].
  apply Ascii.eqb_eq in E. subst e.
  rewrite Ascii.eqb_sym, N. reflexivity.
Qed.

Lemma length_Title_from (prev : ascii) (s : string) :
  String.length (Title_from prev s) = String.length s.
Proof.
  revert prev. induction s as [|r s IH]; intros prev; simpl; [reflexivity|].
  rewrite IH. reflexivity.
Qed.

(** Title-casing writes only upper-case letters, and only over lower-case
    ones. *)
Lemma ToTitle_eqb (r d : ascii) :
  isLetter d = false -> Ascii.eqb (ToTitle r) d = Ascii.eqb r d.
Proof.
  intros L. apply orb_false_iff in L as [L U].
  unfold ToTitle. destruct (isLower r) eqn:R; [|reflexivity].
  destruct (ToTitle_cases r) as [E|E]; unfold ToTitle in E; rewrite R in E.
  - rewrite E. reflexivity.
  - destruct (Ascii.eqb (ascii_of_nat (nat_of_ascii r - 32)) d) eqn:A.
    + apply Ascii.eqb_eq in A. congruence.
    + destruct (Ascii.eqb r d) eqn:B; [|reflexivity].
      apply Ascii.eqb_eq in B. congruence.
Qed.

Lemma count_Title_from (d prev : ascii) (s : string) :
  isLetter d = false -> count d (Title_from prev s) = count d s.
Proof.
  intros L. revert prev. induction s as [|r s IH]; intros prev; simpl; [reflexivity|].
  rewrite IH. destruct (isSeparator prev); [|reflexivity].
  rewrite (ToTitle_eqb _ _ L). reflexivity.
Qed.

Lemma Join_Split (s : string) (sep : ascii) : Join (Split s sep) = Remove sep s.
Proof.
  induction s as [|c t IH]; simpl; [reflexivity|].
  destruct (Ascii.eqb c sep); [exact IH|].
  destruct (Split_cons t sep) as (p & ps & Hs). rewrite Hs in *.
  simpl in *. rewrite append_String, IH. reflexivity.
Qed.

Lemma length_Join_Title (l : list string) :
  String.length (Join (map Title l)) = String.length (Join l).
Proof.
  induction l as [|p l IH]; simpl; [reflexivity|].
  rewrite !length_append, IH. unfold Title. rewrite length_Title_from.
  reflexivity.
Qed.

Lemma count_Join_Title (d : ascii) (l : list string) :
  isLetter d = false -> count d (Join (map Title l)) = count d (Join l).
Proof.
  intros L. induction l as [|p l IH]; simpl; [reflexivity|].
  rewrite !count_append, IH. unfold Title. rewrite (count_Title_from _ _ _ L).
  reflexivity.
Qed.

(** Folding a separator keeps the length and the other bytes of the name
    with the separator removed. *)
Lemma toCamel_measure (sep : ascii) (name : string) :
  String.length (toCamel sep name) = String.length (Remove sep name)
  /\ forall d, isLetter d = false ->
       count d (toCamel sep name) = count d (Remove sep name).
Proof.
  unfold toCamel. rewrite <- Join_Split.
  destruct (Split name sep) as [|s0 [|s1 rest]] eqn:Hs.
  - destruct (Split_cons name sep) as (? & ? & ?). congruence.
  - destruct (Split_single _ _ _ Hs) as [-> _]. simpl.
    rewrite append_empty. auto.
  - split.
    + change (Join (s0 :: map Title (s1 :: rest)))
        with (s0 +:+ Join (map Title (s1 :: rest))).
      change (Join (s0 :: s1 :: rest)) with (s0 +:+ Join (s1 :: rest)).
      rewrite !length_append, length_Join_Title. reflexivity.
    + intros d L.
      change (Join (s0 :: map Title (s1 :: rest)))
        with (s0 +:+ Join (map Title (s1 :: rest))).
      change (Join (s0 :: s1 :: rest)) with (s0 +:+ Join (s1 :: rest)).
      rewrite !count_append, (count_Join_Title _ _ L). reflexivity.
Qed.

End Measures.

Section Table.

Lemma rewrites_length (pairs : list (string * string)) (s s' : string) :
  (forall old new, In (old, new) pairs -> String.length old = String.length new) ->
  rewrites pairs s s' -> String.length s' = String.length s.
Proof.
  intros H. induction 1 as [|c s s' _ IH|old new s s' Hin _ IH]; simpl.
  - reflexivity.
  - rewrite IH. reflexivity.
  - rewrite !length_append, IH, (H _ _ Hin). reflexivity.
Qed.

Lemma rewrites_count (pairs : list (string * string)) (d : ascii) (s s' : string) :
  (forall old new, In (old, new) pairs -> count d old = count d new) ->
  rewrites pairs s s' -> count d s' = count d s.
Proof.
  intros H. induction 1 as [|c s s' _ IH|old new s s' Hin _ IH]; simpl.
  - reflexivity.
  - rewrite IH. reflexivity.
  - rewrite !count_append, IH, (H _ _ Hin). reflexivity.
Qed.

Lemma rewrites_upper (pairs : list (string * string)) (s s' : string) :
  (forall old new, In (old, new) pairs -> upper old = upper new) ->
  rewrites pairs s s' -> upper s' = upper s.
Proof.
  intros H. induction 1 as [|c s s' _ IH|old new s s' Hin _ IH]; simpl.
  - reflexivity.
  - rewrite IH. reflexivity.
  - rewrite !upper_append, IH, (H _ _ Hin). reflexivity.
Qed.

Lemma initialismPairs_case : tableCase initialismPairs = true.
Proof. vm_compute. reflexivity. Qed.

Lemma initialismPairs_order : orderOk initialismPairs = true.
Proof. vm_compute. reflexivity. Qed.

Lemma separatorFree_count (s : string) (d : ascii) :
  separatorFree s = true -> isSeparatorByte d = true -> count d s = 0.
Proof.
  intros H D. apply separatorFree_spec in H as (H1 & H2 & H3).
  unfold isSeparatorByte in D.
  apply orb_true_iff in D as [D|D]; [apply orb_true_iff in D as [D|D]|];
    apply Ascii.eqb_eq in D; subst d; apply count_has; assumption.
Qed.

(** What a pair of the initialism table satisfies. *)
Lemma initialismPairs_pair (old new : string) :
  In (old, new) initialismPairs ->
  String.length old = String.length new
  /\ upper old = upper new
  /\ (forall d, isSeparatorByte d = true -> count d old = count d new)
  /\ exists a old' new', old = String a old' /\ new = String a new'
                         /\ isUpper a = true.
Proof.
  intros H.
  pose proof (pairs_In _ initialismPairs_ok _ _ H) as A.
  pose proof initialismPairs_case as B. unfold tableCase in B.
  rewrite forallb_forall in B. specialize (B _ H).
  unfold pairOk in A. unfold pairCase in B. simpl in A, B.
  apply andb_true_iff in A as [A A4]. apply andb_true_iff in A as [A _].
  apply andb_true_iff in A as [_ A2]. apply Nat.eqb_eq in A2.
  apply andb_true_iff in B as [B B3]. apply andb_true_iff in B as [B1 B2].
  apply String.eqb_eq in B2.
  split; [exact A2|]. split; [exact B2|]. split.
  - intros d D. rewrite (separatorFree_count _ _ B1 D).
    rewrite (separatorFree_count _ _ A4 D). reflexivity.
  - destruct old as [|a old']; [discriminate|].
    destruct new as [|b new']; [discriminate|].
    apply andb_true_iff in B3 as [E U]. apply Ascii.eqb_eq in E. subst b.
    exists a, old', new'. auto.
Qed.

Lemma initialisms_rewrites (s : string) :
  rewrites initialismPairs s (initialisms s).
Proof. apply Replace_rewrites, initialismPairs_ok. Qed.

Lemma initialisms_length (s : string) :
  String.length (initialisms s) = String.length s.
Proof.
  apply (rewrites_length _ _ _ (fun o n H => proj1 (initialismPairs_pair o n H))
           (initialisms_rewrites s)).
Qed.

End Table.

(** X1.  The initialism pass changes neither the length of a name nor
    anything but the case of its letters: the result and the input are the
    same string once both are put in upper case. *)
Theorem initialisms_case_only (s : string) :
  String.length (initialisms s) = String.length s
  /\ upper (initialisms s) = upper s.
Proof.
  pose proof (initialisms_rewrites s) as R. split.
  - apply initialisms_length.
  - apply (rewrites_upper _ _ _
             (fun o n H => proj1 (proj2 (initialismPairs_pair o n H))) R).
Qed.

(** The byte-wise normalizer deletes exactly the spaces, the '-' and the
    '_' of its input and keeps the number of the other bytes. *)
Lemma lint_length_bytes (s : string) :
  String.length (lint s) + separators s = String.length s.
Proof.
  pose proof (initialisms_rewrites s) as R.
  pose proof (initialisms_length s) as L.
  assert (C : forall d, isSeparatorByte d = true ->
                        count d (initialisms s) = count d s).
  { intros d D. apply (rewrites_count initialismPairs d); [|exact R].
    intros o n H. apply (initialismPairs_pair o n H), D. }
  unfold lint, separators. rewrite snakeToCamel_toCamel, dashToCamel_toCamel.
  set (r := initialisms s) in *. set (a := squish r).
  destruct (toCamel_measure dash a) as [Ld Cd].
  destruct (toCamel_measure underscore (toCamel dash a)) as [Lu _].
  pose proof (length_Remove underscore (toCamel dash a)) as E1.
  pose proof (length_Remove dash a) as E2.
  pose proof (length_Remove space r) as E3. fold (squish r) in E3. fold a in E3.
  assert (U : count underscore (toCamel dash a) = count underscore s).
  { rewrite (Cd underscore eq_refl).
    rewrite (count_Remove dash underscore a eq_refl).
    unfold a, squish. rewrite (count_Remove space underscore r eq_refl).
    apply C. reflexivity. }
  assert (D : count dash a = count dash s).
  { unfold a, squish. rewrite (count_Remove space dash r eq_refl).
    apply C. reflexivity. }
  rewrite <- (C space eq_refl). lia.
Qed.

Section Heads.

Lemma hasPrefix_cons (s : string) (a : ascii) (p : string) :
  hasPrefix s (String a p) = true -> exists t, s = String a t.
Proof.
  destruct s as [|b t]; simpl; [discriminate|].
  intros H. apply andb_true_iff in H as [H _].
  apply Ascii.eqb_eq in H. subst b. eauto.
Qed.

(** Where a key of the table matches, the input starts with an upper-case
    letter, which the replacement keeps. *)
Lemma lookup_head (s old new : string) :
  lookup initialismPairs s = Some (old, new) ->
  exists a t new', s = String a t /\ new = String a new' /\ isUpper a = true.
Proof.
  intros H. apply lookup_In in H as [Hin Hp].
  destruct (initialismPairs_pair _ _ Hin) as (_ & _ & _ & a & old' & new' & -> & -> & U).
  apply hasPrefix_cons in Hp as [t ->]. exists a, t, new'. auto.
Qed.

Lemma initialisms_head (c : ascii) (t : string) :
  exists rest, initialisms (String c t) = String c rest.
Proof.
  unfold initialisms.
  destruct (lookup initialismPairs (String c t)) as [[old new]|] eqn:H.
  - rewrite (Replace_match _ initialismPairs_ok _ _ _ H).
    apply lookup_head in H as (a & t' & new' & [= -> ->] & -> & _).
    rewrite append_String. eauto.
  - rewrite (Replace_copy _ _ _ H). eauto.
Qed.

Lemma toCamel_head (sep c : ascii) (x : string) :
  Ascii.eqb c sep = false -> exists rest, toCamel sep (String c x) = String c rest.
Proof.
  intros N. unfold toCamel. simpl. rewrite N.
  destruct (Split_cons x sep) as (p & ps & ->).
  destruct ps as [|p1 ps]; [eauto|].
  change (Join (String c p :: map Title (p1 :: ps)))
    with (String c p +:+ Join (map Title (p1 :: ps))).
  rewrite append_String. eauto.
Qed.

Lemma isUpper_not_separator (c : ascii) :
  isUpper c = true -> isSeparatorByte c = false.
Proof.
  intros U. unfold isSeparatorByte.
  destruct (Ascii.eqb c space) eqn:A;
    [apply Ascii.eqb_eq in A; subst c; discriminate|].
  destruct (Ascii.eqb c dash) eqn:B;
    [apply Ascii.eqb_eq in B; subst c; discriminate|].
  destruct (Ascii.eqb c underscore) eqn:C;
    [apply Ascii.eqb_eq in C; subst c; discriminate|].
  reflexivity.
Qed.

Lemma ToTitle_letter (c : ascii) : isLetter c = true -> isUpper (ToTitle c) = true.
Proof.
  unfold isLetter, ToTitle. destruct (isLower c) eqn:L; simpl; [intros _|auto].
  unfold isLower, isUpper, between in *.
  apply andb_true_iff in L as [L1 L2].
  apply Nat.leb_le in L1. apply Nat.leb_le in L2.
  rewrite nat_ascii_embedding by lia.
  apply andb_true_iff. split; apply Nat.leb_le; lia.
Qed.

Lemma lint_head (c : ascii) (t : string) :
  isSeparatorByte c = false -> exists rest, lint (String c t) = String c rest.
Proof.
  intros N. unfold isSeparatorByte in N.
  apply orb_false_iff in N as [N N3]. apply orb_false_iff in N as [N1 N2].
  unfold lint. destruct (initialisms_head c t) as [r ->].
  unfold squish. simpl. rewrite N1.
  rewrite dashToCamel_toCamel.
  destruct (toCamel_head dash c (Remove space r) N2) as [r2 ->].
  rewrite snakeToCamel_toCamel. apply toCamel_head, N3.
Qed.

End Heads.

(** X3.  The normalizer keeps the first byte of a name that does not start
    with a space, a '-' or a '_'. *)
Theorem lint_first_byte (c : ascii) (t : string) :
  isSeparatorByte c = false -> exists rest, lint (String c t) = String c rest.
Proof. apply lint_head. Qed.

Lemma lint_first_byte_witness : exists rest, lint "user-id" = String "u" rest.
Proof. apply (lint_first_byte "u" "ser-id"). reflexivity. Defined.

(** X4.  The identifier of a field whose schema name starts with an ASCII
    letter starts with that letter in upper case, so the field is an
    exported one. *)
Theorem lintTitle_exported (c : ascii) (t : string) :
  isLetter c = true ->
  exists rest, lintTitle (String c t) = String (ToTitle c) rest
               /\ isUpper (ToTitle c) = true.
Proof.
  intros L. pose proof (ToTitle_letter c L) as U.
  unfold lintTitle, Title. simpl.
  destruct (lint_head (ToTitle c) (Title_from c t)
              (isUpper_not_separator _ U)) as [rest E].
  exists rest. split; [exact E|exact U].
Qed.

Lemma lintTitle_exported_witness :
  exists rest, lintTitle "line-item" = String "L" rest /\ isUpper "L" = true.
Proof. apply (lintTitle_exported "l" "ine-item"). reflexivity. Defined.

(** X5.  With exported set, the name of a declared type starts with an
    upper-case letter whenever what it is made from (the prefix, or the
    name when there is no prefix) starts with an ASCII letter and the name
    is not a primitive one. *)
Theorem typeName_exported (prefix name : string) (c : ascii) (t : string) :
  primitiveName name = false ->
  (if String.eqb prefix "" then name else prefix) = String c t ->
  isLetter c = true ->
  exists rest, typeName prefix true name = String (ToTitle c) rest
               /\ isUpper (ToTitle c) = true.
Proof.
  intros P E L. pose proof (ToTitle_letter c L) as U.
  unfold typeName. rewrite P.
  assert (H : exists t', (if String.eqb prefix "" then name else prefix +:+ Title name)
                         = String c t').
  { destruct (String.eqb prefix ""); [eauto|].
    rewrite E, append_String. eauto. }
  destruct H as [t' ->]. unfold Title. simpl.
  destruct (lint_head (ToTitle c) (Title_from c t')
              (isUpper_not_separator _ U)) as [rest R].
  exists rest. split; [exact R|exact U].
Qed.

Lemma typeName_exported_witness :
  exists rest, typeName "xsd" true "order" = String "X" rest /\ isUpper "X" = true.
Proof.
  apply (typeName_exported "xsd" "order" "x" "sd"); reflexivity.
Defined.

Section Priority.

Lemma hasPrefix_self_append (a b : string) : hasPrefix (a +:+ b) a = true.
Proof.
  induction a as [|c a IH]; [destruct b; reflexivity|].
  rewrite append_String. simpl. rewrite Ascii.eqb_refl. exact IH.
Qed.

Lemma hasPrefix_append_l (n new x : string) :
  hasPrefix n new = true -> hasPrefix (n +:+ x) new = true.
Proof.
  revert n. induction new as [|a new IH]; intros n H.
  - destruct (n +:+ x); reflexivity.
  - destruct n as [|b n]; [discriminate|].
    rewrite append_String. simpl in *.
    apply andb_true_iff in H as [H1 H2]. rewrite H1. apply IH, H2.
Qed.

Lemma hasPrefix_refl (s : string) : hasPrefix s s = true.
Proof.
  induction s as [|c s IH]; simpl; [reflexivity|].
  rewrite Ascii.eqb_refl. exact IH.
Qed.

(** Two prefixes of one string: one is a prefix of the other. *)
Lemma hasPrefix_comparable (s a b : string) :
  hasPrefix s a = true -> hasPrefix s b = true ->
  hasPrefix a b || hasPrefix b a = true.
Proof.
  revert a b. induction s as [|c s IH]; intros [|x a] [|y b] Ha Hb;
    try reflexivity; try discriminate.
  simpl in *.
  apply andb_true_iff in Ha as [Ha1 Ha2]. apply andb_true_iff in Hb as [Hb1 Hb2].
  apply Ascii.eqb_eq in Ha1, Hb1. subst x y. rewrite Ascii.eqb_refl. simpl.
  apply IH; assumption.
Qed.

(** The key found is declared no later than any other key that matches. *)
Lemma lookup_first (l : list (string * string)) (s k n old new : string) :
  orderOk l = true -> lookup l s = Some (k, n) ->
  In (old, new) l -> hasPrefix s old = true -> hasPrefix n new = true.
Proof.
  induction l as [|[k0 n0] l IH]; intros O H Hin Hp; [discriminate|].
  simpl in O. apply andb_true_iff in O as [O1 O2].
  simpl in H. destruct (hasPrefix s k0) eqn:E.
  - injection H as <- <-.
    apply andb_true_iff in O1 as [_ O1].
    rewrite forallb_forall in O1.
    destruct Hin as [[= <- <-]|Hin].
    + apply hasPrefix_refl.
    + specialize (O1 _ Hin). simpl in O1.
      rewrite (hasPrefix_comparable s k0 old E Hp) in O1. exact O1.
  - destruct Hin as [[= <- <-]|Hin]; [congruence|].
    apply (IH O2 H Hin Hp).
Qed.

Lemma lookup_some (l : list (string * string)) (s old new : string) :
  In (old, new) l -> hasPrefix s old = true ->
  exists k n, lookup l s = Some (k, n).
Proof.
  induction l as [|[k0 n0] l IH]; intros Hin Hp; [destruct Hin|].
  simpl. destruct (hasPrefix s k0) eqn:E; [eauto|].
  destruct Hin as [[= <- <-]|Hin]; [congruence|auto].
Qed.

End Priority.

(** X6.  A name that starts with a key of the initialism table comes out
    starting with that key's replacement, whatever follows the key: where a
    longer key also matches (Https for Http, Uid for Ui), it is declared
    first and its replacement starts with the shorter one's. *)
Theorem initialisms_key_first (old new rest : string) :
  In (old, new) initialismPairs ->
  hasPrefix (initialisms (old +:+ rest)) new = true.
Proof.
  intros Hin. pose proof (hasPrefix_self_append old rest) as Hp.
  destruct (lookup_some _ _ _ _ Hin Hp) as (k & n & H).
  unfold initialisms. rewrite (Replace_match _ initialismPairs_ok _ _ _ H).
  apply hasPrefix_append_l.
  apply (lookup_first _ _ _ _ _ _ initialismPairs_order H Hin Hp).
Qed.

Lemma initialisms_key_first_witness :
  hasPrefix (initialisms ("Http" +:+ "sProxy")) "HTTP" = true.
Proof.
  apply (initialisms_key_first "Http" "HTTP" "sProxy").
  unfold initialismPairs. simpl. tauto.
Defined.

Lemma noUpper_occurs (s : string) :
  noUpper s = true -> occurs initialismPairs s = false.
Proof.
  induction s as [|c t IH].
  - intros _. reflexivity.
  - change (noUpper (String c t)) with (negb (isUpper c) && noUpper t).
    change (occurs initialismPairs (String c t))
      with (isSome (lookup initialismPairs (String c t))
            || occurs initialismPairs t).
    intros H. apply andb_true_iff in H as [H1 H2].
    rewrite (IH H2), orb_false_r.
    destruct (lookup initialismPairs (String c t)) as [[old new]|] eqn:L;
      [|reflexivity].
    apply lookup_head in L as (a & t' & new' & [= -> ->] & _ & U).
    rewrite U in H1. discriminate.
Qed.

(** X7.  A name with no space, '-' or '_' and with no ASCII upper-case
    letter is its own normal form. *)
Theorem lint_plain (s : string) :
  separatorFree s = true -> noUpper s = true -> lint s = s.
Proof.
  intros S U. destruct (lint_separatorFree s S) as [-> _].
  apply (Replace_fixed _ initialismPairs_ok). apply noUpper_occurs, U.
Qed.

Lemma lint_plain_witness : lint "street1" = "street1".
Proof. apply (lint_plain "street1"); reflexivity. Defined.

(** * Further properties of the templates *)

(** X8.  The field of a child that carries character data is declared with
    the very identifier under which the child's own declaration is
    written: both are [typeName] of the child's Name. *)
Theorem cdata_child_refers_to_declaration (prefix : string) (exported : bool)
    (c : xmlTree) :
  Cdata c = true ->
  child prefix exported c =
    childField (lintTitle (Name c))
      ((if List_ c then "[]" else "") +:+ typeName prefix exported (Name c))
      (Name c)
  /\ hasPrefix (elem prefix exported c)
               (declHead (typeName prefix exported (Name c))) = true.
Proof.
  intros C. split.
  - rewrite child_line. unfold fieldType. rewrite C. reflexivity.
  - rewrite elem_lines. apply hasPrefix_self_append.
Qed.

Lemma cdata_child_refers_to_declaration_witness :
  let c := XmlTree "unit-price" "float64" false true [] [] in
  child "" false c = childField "UnitPrice" "unitPrice" "unit-price"
  /\ hasPrefix (elem "" false c) (declHead "unitPrice") = true.
Proof.
  intros c. apply (cdata_child_refers_to_declaration "" false c). reflexivity.
Defined.

(** X9.  The field of a primitive child is declared with the child's raw
    Type (after [] when the child is a list), whatever the prefix and
    exported are. *)
Theorem primitive_child_inlined (prefix : string) (exported : bool) (c : xmlTree) :
  primitiveType c = true ->
  child prefix exported c =
    childField (lintTitle (Name c))
      ((if List_ c then "[]" else "") +:+ Type_ c) (Name c).
Proof.
  intros P. rewrite child_line. unfold primitiveType in P.
  unfold fieldType, typeName. destruct (Cdata c); [discriminate|].
  rewrite P. reflexivity.
Qed.

Lemma primitive_child_inlined_witness :
  child "Xsd" true (XmlTree "ship-date" "time.Time" true false [] [])
  = childField "ShipDate" "[]time.Time" "ship-date".
Proof.
  apply (primitive_child_inlined "Xsd" true
           (XmlTree "ship-date" "time.Time" true false [] [])).
  reflexivity.
Defined.

(** * Further properties of the walker *)

Section UniqueNames.

Variable tt : Template.
Hypothesis tt_ok : forall e, snd (tt e) = None.

Lemma reach_eq (e : xmlTree) : reach e = e :: reachChildren reach (Children e).
Proof. destruct e. reflexivity. Qed.

Lemma Join_app (a b : list string) : Join (a ++ b) = Join a +:+ Join b.
Proof.
  induction a as [|x a IH]; simpl; [reflexivity|].
  rewrite IH, append_assoc. reflexivity.
Qed.

Lemma NoDup_app_disjoint {A : Type} (a b : list A) :
  List.NoDup (a ++ b) -> forall x, In x a -> ~ In x b.
Proof.
  induction a as [|y a IH]; simpl; intros H x Hx; [destruct Hx|].
  apply List.NoDup_cons_iff in H as [H1 H2].
  destruct Hx as [->|Hx]; [|apply (IH H2 x Hx)].
  intros Hb. apply H1, in_or_app. right. exact Hb.
Qed.

Lemma NoDup_names_app (a b : list xmlTree) :
  List.NoDup (map Name (a ++ b)) ->
  List.NoDup (map Name a) /\ List.NoDup (map Name b)
  /\ forall x, In x b -> ~ In (Name x) (map Name a).
Proof.
  rewrite map_app. intros H.
  split; [exact (NoDup_app_remove_r _ _ H)|].
  split; [exact (NoDup_app_remove_l _ _ H)|].
  intros x Hx Hin. apply (NoDup_app_disjoint _ _ H (Name x) Hin).
  apply in_map, Hx.
Qed.

Lemma rendersAll_nil (st : walk) : rendersAll tt [] st st None.
Proof.
  unfold rendersAll. simpl. rewrite app_nil_r, append_empty.
  repeat split. set_solver.
Qed.

Lemma rendersAll_app (l1 l2 : list xmlTree) (st st1 st2 : walk) (r : option Err) :
  rendersAll tt l1 st st1 None -> rendersAll tt l2 st1 st2 r ->
  rendersAll tt (l1 ++ l2) st st2 r.
Proof.
  intros (_ & T1 & S1 & R1) (E & T2 & S2 & R2). unfold rendersAll.
  split; [exact E|]. split; [|split].
  - rewrite T2, T1, map_app. apply eq_sym, app_assoc.
  - rewrite S2, S1, map_app, list_to_set_app_L. set_solver.
  - rewrite R2, R1, map_app, Join_app. apply append_assoc.
Qed.

Lemma rangeChildren_unique (cs : list xmlTree) :
  Forall (executeUnique tt) cs ->
  forall st st' r, rangeChildren (execute tt) cs st = (st', r) ->
  fresh (reachChildren reach cs) (types st) ->
  List.NoDup (map Name (reachChildren reach cs)) ->
  rendersAll tt (reachChildren reach cs) st st' r.
Proof.
  induction 1 as [|c cs Hc _ IH]; intros st st' r E F N.
  - simpl in E. injection E as <- <-. apply rendersAll_nil.
  - simpl in E, F, N. destruct (primitiveType c) eqn:P.
    + simpl. rewrite P. apply (IH _ _ _ E F N).
    + simpl. rewrite P.
      destruct (NoDup_names_app _ _ N) as (N1 & N2 & N3).
      destruct (execute tt c st) as [st1 r1] eqn:E1.
      assert (X1 : rendersAll tt (reach c) st st1 r1).
      { apply (Hc _ _ _ E1); [|exact N1].
        intros x Hx. apply F, in_or_app. left. exact Hx. }
      destruct X1 as (-> & X1). pose proof X1 as (_ & S1 & _).
      eapply rendersAll_app; [split; [reflexivity|exact X1]|].
      apply (IH _ _ _ E); [|exact N2].
      intros x Hx. rewrite S1. intros Hin.
      apply elem_of_union in Hin as [Hin|Hin].
      * apply elem_of_list_to_set, list_elem_of_In in Hin.
        exact (N3 x Hx Hin).
      * revert Hin. apply F, in_or_app. right. exact Hx.
Qed.

Lemma execute_unique (e : xmlTree) : executeUnique tt e.
Proof.
  induction e as [n a b c d cs IH] using xmlTree_ind.
  set (e := XmlTree n a b c d cs) in *.
  intros st st' r E F N. rewrite execute_eq in E. rewrite reach_eq in *.
  change (Children e) with cs in *.
  destruct (decide (Name e ∈ types st)) as [Hin|Hnin].
  { exfalso. apply (F e); [left; reflexivity|exact Hin]. }
  pose proof (tt_ok e) as OK. destruct (tt e) as [text [err|]] eqn:T;
    [discriminate|].
  simpl in N. apply List.NoDup_cons_iff in N as [N0 N].
  assert (X : rendersAll tt (reachChildren reach cs)
                (note (Rendered e) (visit (Name e) (write text st))) st' r).
  { apply (rangeChildren_unique _ IH _ _ _ E); [|exact N].
    intros x Hx. simpl. intros Hin.
    apply elem_of_union in Hin as [Hin|Hin].
    - apply elem_of_singleton in Hin. apply N0. rewrite <- Hin.
      apply in_map, Hx.
    - revert Hin. apply F. right. exact Hx. }
  destruct X as (-> & X1 & X2 & X3). unfold rendersAll. simpl in *.
  rewrite T. simpl.
  split; [reflexivity|]. split; [|split].
  - rewrite X1, <- app_assoc. reflexivity.
  - rewrite X2. set_solver.
  - rewrite X3. apply append_assoc.
Qed.

Lemma rangeRoots_unique (roots : list xmlTree) :
  forall st st' r, rangeRoots tt roots st = (st', r) ->
  fresh (reachAll roots) (types st) -> List.NoDup (map Name (reachAll roots)) ->
  rendersAll tt (reachAll roots) st st' r.
Proof.
  induction roots as [|e roots IH]; intros st st' r E F N.
  - simpl in E. injection E as <- <-. apply rendersAll_nil.
  - simpl in E, F, N. unfold reachAll in *. simpl in *.
    destruct (NoDup_names_app _ _ N) as (N1 & N2 & N3).
    destruct (execute tt e st) as [st1 r1] eqn:E1.
    assert (X1 : rendersAll tt (reach e) st st1 r1).
    { apply (execute_unique e _ _ _ E1); [|exact N1].
      intros x Hx. apply F, in_or_app. left. exact Hx. }
    destruct X1 as (-> & X1). pose proof X1 as (_ & S1 & _).
    eapply rendersAll_app; [split; [reflexivity|exact X1]|].
    apply (IH _ _ _ E); [|exact N2].
    intros x Hx. rewrite S1. intros Hin.
    apply elem_of_union in Hin as [Hin|Hin].
    + apply elem_of_list_to_set, list_elem_of_In in Hin.
      exact (N3 x Hx Hin).
    + revert Hin. apply F, in_or_app. right. exact Hx.
Qed.

End UniqueNames.

(** X10.  When the nodes of the forest that are reached through
    non-primitive children have pairwise distinct names and no rendering
    fails, the walk renders exactly those nodes, each once, in pre-order
    (a node before its children, the children in their order), and the
    buffer is the text it started with followed by their renderings in
    that order. *)
Theorem walk_preorder (tt : Template) (roots : list xmlTree) (h : string)
    (st' : walk) (r : option Err) :
  (forall e, snd (tt e) = None) ->
  List.NoDup (map Name (reachAll roots)) ->
  rangeRoots tt roots (Walk ∅ h []) = (st', r) ->
  r = None
  /\ trace st' = map Rendered (reachAll roots)
  /\ res st' = h +:+ Join (map (fun e => fst (tt e)) (reachAll roots)).
Proof.
  intros OK N E.
  destruct (rangeRoots_unique tt OK roots _ _ _ E) as (R & T & _ & B).
  - intros x _. simpl. set_solver.
  - exact N.
  - auto.
Qed.

Lemma walk_preorder_witness :
  let run := rangeRoots (elemTemplate "" false) [order] (Walk ∅ "" []) in
  snd run = None
  /\ trace (fst run) = map Rendered (reachAll [order])
  /\ res (fst run)
     = "" +:+ Join (map (fun e => fst (elemTemplate "" false e)) (reachAll [order])).
Proof.
  intros run.
  apply (walk_preorder (elemTemplate "" false) [order] "" (fst run) (snd run)).
  - intros e. reflexivity.
  - vm_compute. repeat constructor; simpl; intuition discriminate.
  - apply surjective_pairing.
Defined.

Section Forest.

Variable tt : Template.

Lemma rangeChildren_within (cs : list xmlTree) :
  Forall (fun c => forall st st' r, execute tt c st = (st', r) ->
            exists evs, trace st' = trace st ++ evs
              /\ Forall (fun ev => In (eventNode ev) (reach c)) evs) cs ->
  forall st st' r, rangeChildren (execute tt) cs st = (st', r) ->
  exists evs, trace st' = trace st ++ evs
    /\ Forall (fun ev => In (eventNode ev) (reachChildren reach cs)) evs.
Proof.
  induction 1 as [|c cs Hc _ IH]; intros st st' r E.
  - simpl in E. injection E as <- <-. exists []. rewrite app_nil_r.
    split; [reflexivity|constructor].
  - simpl in E. simpl. destruct (primitiveType c) eqn:P; [apply (IH _ _ _ E)|].
    destruct (execute tt c st) as [st1 [err|]] eqn:E1.
    + injection E as <- <-. destruct (Hc _ _ _ E1) as (evs & T & F).
      exists evs. split; [exact T|].
      eapply List.Forall_impl; [|exact F].
      intros ev Hin. apply in_or_app. left. exact Hin.
    + destruct (Hc _ _ _ E1) as (evs1 & T1 & F1).
      destruct (IH _ _ _ E) as (evs2 & T2 & F2).
      exists (evs1 ++ evs2). split; [rewrite T2, T1; apply eq_sym, app_assoc|].
      apply Forall_app. split.
      * eapply List.Forall_impl; [|exact F1].
        intros ev Hin. apply in_or_app. left. exact Hin.
      * eapply List.Forall_impl; [|exact F2].
        intros ev Hin. apply in_or_app. right. exact Hin.
Qed.

Lemma execute_within (e : xmlTree) :
  forall st st' r, execute tt e st = (st', r) ->
  exists evs, trace st' = trace st ++ evs
    /\ Forall (fun ev => In (eventNode ev) (reach e)) evs.
Proof.
  induction e as [n a b c d cs IH] using xmlTree_ind.
  set (e := XmlTree n a b c d cs) in *.
  intros st st' r E. rewrite execute_eq in E. rewrite reach_eq.
  change (Children e) with cs in *.
  destruct (decide (Name e ∈ types st)) as [Hin|Hnin].
  { injection E as <- <-. exists [Skipped e]. split; [reflexivity|].
    repeat constructor. }
  destruct (tt e) as [text [err|]] eqn:T.
  { injection E as <- <-. exists [Failed e]. split; [reflexivity|].
    repeat constructor. }
  destruct (rangeChildren_within _ IH _ _ _ E) as (evs & Tr & F).
  exists (Rendered e :: evs). split.
  - rewrite Tr. simpl. rewrite <- app_assoc. reflexivity.
  - constructor; [left; reflexivity|].
    eapply List.Forall_impl; [|exact F]. intros ev Hin. right. exact Hin.
Qed.

Lemma rangeRoots_within (roots : list xmlTree) :
  forall st st' r, rangeRoots tt roots st = (st', r) ->
  exists evs, trace st' = trace st ++ evs
    /\ Forall (fun ev => In (eventNode ev) (reachAll roots)) evs.
Proof.
  induction roots as [|e roots IH]; intros st st' r E; simpl in E.
  - injection E as <- <-. exists []. rewrite app_nil_r.
    split; [reflexivity|constructor].
  - unfold reachAll. simpl.
    destruct (execute tt e st) as [st1 [err|]] eqn:E1.
    + injection E as <- <-. destruct (execute_within _ _ _ _ E1) as (evs & T & F).
      exists evs. split; [exact T|].
      eapply List.Forall_impl; [|exact F].
      intros ev Hin. apply in_or_app. left. exact Hin.
    + destruct (execute_within _ _ _ _ E1) as (evs1 & T1 & F1).
      destruct (IH _ _ _ E) as (evs2 & T2 & F2).
      exists (evs1 ++ evs2). split; [rewrite T2, T1; apply eq_sym, app_assoc|].
      apply Forall_app. split.
      * eapply List.Forall_impl; [|exact F1].
        intros ev Hin. apply in_or_app. left. exact Hin.
      * eapply List.Forall_impl; [|exact F2].
        intros ev Hin. apply in_or_app. right. exact Hin.
Qed.

(** With no failure among them, the text of the events is the renderings
    of the nodes rendered. *)
Lemma output_rendered (evs : list event) :
  Forall (fun ev => isFailed ev = false) evs ->
  output tt evs = Join (map (fun e => fst (tt e)) (renderedNodes evs)).
Proof.
  induction 1 as [|[e|e|e] evs Hev _ IH]; simpl; try discriminate;
    rewrite ?IH; reflexivity.
Qed.

End Forest.

(** X11.  Whatever the templates do, the walker calls execute only on nodes
    of the forest of its roots that are reached through non-primitive
    children: nothing below a primitive child is ever visited. *)
Theorem walk_within_forest (tt : Template) (roots : list xmlTree)
    (st st' : walk) (r : option Err) :
  rangeRoots tt roots st = (st', r) ->
  exists evs,
    trace st' = trace st ++ evs
    /\ forall ev, In ev evs -> In (eventNode ev) (reachAll roots).
Proof.
  intros E. destruct (rangeRoots_within tt roots _ _ _ E) as (evs & T & F).
  exists evs. split; [exact T|]. apply List.Forall_forall, F.
Qed.

Lemma walk_within_forest_witness :
  let deep := XmlTree "deep" "deep" false false [] [] in
  let prim := XmlTree "prim" "string" false false [] [deep] in
  let top := XmlTree "top" "top" false false [] [prim] in
  exists evs,
    trace (fst (rangeRoots (elemTemplate "" false) [top] (Walk ∅ "" []))) = [] ++ evs
    /\ forall ev, In ev evs -> In (eventNode ev) (reachAll [top]).
Proof.
  intros deep prim top.
  apply (walk_within_forest (elemTemplate "" false) [top] (Walk ∅ "" []) _
           (snd (rangeRoots (elemTemplate "" false) [top] (Walk ∅ "" [])))).
  apply surjective_pairing.
Defined.

(** X12.  After a walk with no failure, every root and every non-primitive
    child of every rendered node has a rendered node of its Name: no name
    the walk was to declare is left without a declaration. *)
Theorem walk_closed (tt : Template) (roots : list xmlTree) (h : string)
    (st' : walk) :
  rangeRoots tt roots (Walk ∅ h []) = (st', None) ->
  (forall e, In e roots ->
     exists d, In d (renderedNodes (trace st')) /\ Name d = Name e)
  /\ (forall p c, In p (renderedNodes (trace st')) -> In c (Children p) ->
       primitiveType c = false ->
       exists d, In d (renderedNodes (trace st')) /\ Name d = Name c).
Proof.
  intros E. destruct (rangeRoots_spec tt _ _ _ _ E) as (evs & X & _ & K).
  destruct X as (T & S & _). simpl in T, S. subst evs.
  destruct (K eq_refl) as [K1 K2].
  assert (D : forall n, n ∈ types st' ->
                exists d, In d (renderedNodes (trace st')) /\ Name d = n).
  { intros n Hn. rewrite S in Hn.
    assert (Hn' : n ∈ names (trace st')) by set_solver.
    apply names_spec, in_map_iff in Hn' as (d & Hd & Hin). eauto. }
  split.
  - intros e He. apply D, K2, He.
  - intros p c Hp Hc P. apply D. apply (K1 p c Hp Hc P).
Qed.

Lemma walk_closed_witness :
  let st := fst (rangeRoots (elemTemplate "" false) [order] (Walk ∅ "" [])) in
  exists d, In d (renderedNodes (trace st)) /\ Name d = Name lineItem.
Proof.
  intros st.
  destruct (walk_closed (elemTemplate "" false) [order] "" st) as [_ C].
  - vm_compute. reflexivity.
  - apply (C order lineItem).
    + vm_compute. left. reflexivity.
    + left. reflexivity.
    + reflexivity.
Defined.

(** X13.  At the end of a run, failed or not, the visited set is exactly
    the set of the names of the nodes rendered, and the buffer still starts
    with the text it held before the walk (the header). *)
Theorem visited_are_rendered (tt : Template) (roots : list xmlTree) (h : string)
    (st' : walk) (r : option Err) :
  rangeRoots tt roots (Walk ∅ h []) = (st', r) ->
  types st' = list_to_set (map Name (renderedNodes (trace st')))
  /\ hasPrefix (res st') h = true.
Proof.
  intros E. destruct (rangeRoots_spec tt _ _ _ _ E) as (evs & X & _).
  destruct X as (T & S & R & _). simpl in T, S, R. subst evs.
  split.
  - rewrite S. unfold names. set_solver.
  - rewrite R. apply hasPrefix_self_append.
Qed.

Lemma visited_are_rendered_witness :
  let st := fst (rangeRoots (failingOn "line-item") [order] (Walk ∅ "// h" [])) in
  types st = list_to_set (map Name (renderedNodes (trace st)))
  /\ hasPrefix (res st) "// h" = true.
Proof.
  intros st.
  apply (visited_are_rendered (failingOn "line-item") [order] "// h" st
           (snd (rangeRoots (failingOn "line-item") [order] (Walk ∅ "// h" [])))).
  apply surjective_pairing.
Defined.

(** * Repeated roots *)

Lemma Split_app (a x : string) (sep : ascii) :
  has sep a = false -> Split (a +:+ String sep x) sep = a :: Split x sep.
Proof.
  induction a as [|d a IH]; intros H.
  - simpl. rewrite Ascii.eqb_refl. reflexivity.
  - simpl in H. apply orb_false_iff in H as [H1 H2].
    rewrite append_String. simpl. rewrite H1, (IH H2). reflexivity.
Qed.

Lemma rangeRoots_visited (tt : Template) (l : list xmlTree) (st : walk) :
  (forall e, In e l -> Name e ∈ types st) ->
  rangeRoots tt l st
  = (Walk (types st) (res st) (trace st ++ map Skipped l), None).
Proof.
  revert st. induction l as [|e l IH]; intros st H.
  - simpl. rewrite app_nil_r. destruct st. reflexivity.
  - simpl. rewrite execute_eq.
    destruct (decide (Name e ∈ types st)) as [Hin|Hnin].
    + rewrite IH.
      * simpl. rewrite <- app_assoc. reflexivity.
      * intros e' He'. simpl. apply H. right. exact He'.
    + exfalso. apply Hnin, H. left. reflexivity.
Qed.

(** X16.  Roots that repeat names of roots already walked with success add
    nothing: the walk over them leaves the visited set and the buffer as
    they were and only skips. *)
Theorem repeated_roots_add_nothing (tt : Template) (roots more : list xmlTree)
    (st st1 : walk) :
  rangeRoots tt roots st = (st1, None) ->
  (forall e, In e more -> exists e', In e' roots /\ Name e = Name e') ->
  rangeRoots tt (roots ++ more) st
  = (Walk (types st1) (res st1) (trace st1 ++ map Skipped more), None).
Proof.
  intros E H. rewrite rangeRoots_app, E.
  apply rangeRoots_visited. intros e He.
  destruct (H e He) as (e' & He' & ->).
  destruct (rangeRoots_spec tt _ _ _ _ E) as (evs & _ & _ & K).
  apply (K eq_refl), He'.
Qed.

Lemma repeated_roots_add_nothing_witness :
  let st1 := fst (rangeRoots (elemTemplate "" false) [order] (Walk ∅ "" [])) in
  rangeRoots (elemTemplate "" false) ([order] ++ [order; order]) (Walk ∅ "" [])
  = (Walk (types st1) (res st1) (trace st1 ++ map Skipped [order; order]), None).
Proof.
  intros st1.
  apply (repeated_roots_add_nothing (elemTemplate "" false) [order] [order; order]).
  - vm_compute. reflexivity.
  - intros e He. exists order. split; [left; reflexivity|].
    destruct He as [<-|[<-|[]]]; reflexivity.
Defined.

(** * The rune-level title-casing *)

Section Bits.

Local Open Scope N_scope.

Lemma lor_ge_l (a b : N) : a <= N.lor a b.
Proof.
  assert (E : a + N.ldiff b a = N.lor a b).
  { rewrite N.add_nocarry_lxor.
    - apply N.bits_inj. intros m.
      rewrite N.lxor_spec, N.lor_spec, N.ldiff_spec.
      destruct (N.testbit a m), (N.testbit b m); reflexivity.
    - apply N.bits_inj. intros m.
      rewrite N.land_spec, N.ldiff_spec, N.bits_0.
      destruct (N.testbit a m), (N.testbit b m); reflexivity. }
  rewrite <- E. lia.
Qed.

Lemma lor_ge_r (a b : N) : b <= N.lor a b.
Proof. rewrite N.lor_comm. apply lor_ge_l. Qed.

Lemma byteN_lt (c : ascii) : byteN c < 256.
Proof. apply N_ascii_bounded. Qed.

Lemma byteN_inj (c d : ascii) : byteN c = byteN d -> c = d.
Proof.
  intros H. rewrite <- (ascii_N_embedding c), <- (ascii_N_embedding d).
  unfold byteN in H. rewrite H. reflexivity.
Qed.

Lemma byteN_byte (n : N) : byteN (byte n) = N.land n 255.
Proof.
  unfold byteN, byte. apply N_ascii_embedding.
  change 255 with (N.ones 8). rewrite N.land_ones.
  apply N.mod_lt. discriminate.
Qed.

(** A byte written with its top bit set is none of the three separators. *)
Lemma byte_high (n : N) (d : ascii) :
  N.testbit n 7 = true -> isSeparatorByte d = true -> Ascii.eqb (byte n) d = false.
Proof.
  intros T D. destruct (Ascii.eqb (byte n) d) eqn:E; [|reflexivity].
  apply Ascii.eqb_eq in E. apply (f_equal byteN) in E.
  rewrite byteN_byte in E.
  apply (f_equal (fun x => N.testbit x 7)) in E.
  rewrite N.land_spec, T in E. simpl in E.
  unfold isSeparatorByte in D.
  apply orb_true_iff in D as [D|D]; [apply orb_true_iff in D as [D|D]|];
    apply Ascii.eqb_eq in D; subst d; discriminate.
Qed.

Lemma lor_bit7 (k y : N) : N.testbit k 7 = true -> N.testbit (N.lor k y) 7 = true.
Proof. intros H. rewrite N.lor_spec, H. reflexivity. Qed.

End Bits.

Section Coding.

Local Open Scope N_scope.

Lemma has_single (d c : ascii) : has d (String c "") = Ascii.eqb c d.
Proof. simpl. apply orb_false_r. Qed.

Lemma has_cons (d c : ascii) (s : string) :
  has d (String c s) = Ascii.eqb c d || has d s.
Proof. reflexivity. Qed.

(** The encoding of a rune holds a space, a '-' or a '_' only when the rune
    is that byte. *)
Lemma has_EncodeRune (d : ascii) (x : N) :
  isSeparatorByte d = true -> has d (EncodeRune x) = true -> x = byteN d.
Proof.
  intros D. unfold EncodeRune, encode3.
  destruct (x <=? 0x7F) eqn:A.
  - rewrite has_single. intros E. apply Ascii.eqb_eq in E.
    apply (f_equal byteN) in E. rewrite byteN_byte in E.
    apply N.leb_le in A. rewrite <- E.
    change 255 with (N.ones 8). rewrite N.land_ones.
    symmetry. apply N.mod_small. lia.
  - destruct (x <=? 0x7FF);
      [|destruct ((MaxRune <? x) || inRange 0xD800 0xDFFF x);
        [|destruct (x <=? 0xFFFF)]];
      rewrite !has_cons;
      rewrite ?(byte_high _ d (lor_bit7 0xC0 _ eq_refl) D),
              ?(byte_high _ d (lor_bit7 0xE0 _ eq_refl) D),
              ?(byte_high _ d (lor_bit7 0xF0 _ eq_refl) D),
              ?(byte_high _ d (lor_bit7 0x80 _ eq_refl) D);
      discriminate.
Qed.

Lemma isSeparatorByte_code (d : ascii) :
  isSeparatorByte d = true -> isSeparatorCode (byteN d) = true.
Proof.
  unfold isSeparatorByte. intros D.
  apply orb_true_iff in D as [D|D]; [apply orb_true_iff in D as [D|D]|];
    apply Ascii.eqb_eq in D; subst d; reflexivity.
Qed.

Lemma isSeparatorCode_lt (r : N) : isSeparatorCode r = true -> r < 128.
Proof.
  unfold isSeparatorCode. intros D.
  apply orb_true_iff in D as [D|D]; [apply orb_true_iff in D as [D|D]|];
    apply N.eqb_eq in D; subst r; reflexivity.
Qed.

(** A rune that title-cases to one of the three separators is that
    separator, when the table maps no rune above 0x7F to one of them. *)
Lemma ToTitleRune_separator (U : Tables) (r : N) :
  (forall x, 128 <= x -> isSeparatorCode (ToTitleTable U x) = false) ->
  isSeparatorCode (ToTitleRune U r) = true -> ToTitleRune U r = r.
Proof.
  intros H. unfold ToTitleRune. destruct (r <=? 0x7F) eqn:A.
  - destruct (inRange 97 122 r) eqn:B; [|reflexivity].
    unfold inRange in B. apply andb_true_iff in B as [B1 B2].
    apply N.leb_le in B1, B2. intros D. exfalso.
    unfold isSeparatorCode in D.
    apply orb_true_iff in D as [D|D]; [apply orb_true_iff in D as [D|D]|];
      apply N.eqb_eq in D; lia.
  - apply N.leb_gt in A. rewrite H by lia. discriminate.
Qed.

Lemma land_mod (a : N) :
  N.land a 0x1F = a mod 32 /\ N.land a 0x0F = a mod 16
  /\ N.land a 0x07 = a mod 8 /\ N.land a 0x3F = a mod 64.
Proof.
  change 0x1F with (N.ones 5). change 0x0F with (N.ones 4).
  change 0x07 with (N.ones 3). change 0x3F with (N.ones 6).
  rewrite !N.land_ones. auto.
Qed.

Lemma mod_facts (a k : N) : k <> 0 -> a = k * (a / k) + a mod k /\ a mod k < k.
Proof. intros K. split; [apply N.div_mod, K|apply N.mod_lt, K]. Qed.

End Coding.

Section Decoding.

Local Open Scope N_scope.

Lemma inRange_spec (lo hi b : N) : inRange lo hi b = true <-> lo <= b <= hi.
Proof.
  unfold inRange. rewrite andb_true_iff, !N.leb_le. tauto.
Qed.

(** What the table gives for a leading byte. *)
Lemma leadInfo_spec (s0 sz lo hi : N) :
  leadInfo s0 = Some (sz, lo, hi) ->
  128 <= lo /\ hi <= 191
  /\ ((sz = 2 /\ 194 <= s0 <= 223)
      \/ (sz = 3 /\ 224 <= s0 <= 239 /\ (s0 = 224 -> 160 <= lo))
      \/ (sz = 4 /\ 240 <= s0 <= 244 /\ (s0 = 240 -> 144 <= lo))).
Proof.
  unfold leadInfo.
  repeat match goal with
         | |- context [if inRange ?a ?b s0 then _ else _] =>
             let H := fresh "R" in
             destruct (inRange a b s0) eqn:H;
             [apply inRange_spec in H|]
         | |- context [if s0 =? ?a then _ else _] =>
             let H := fresh "Q" in
             destruct (s0 =? a) eqn:H;
             [apply N.eqb_eq in H|apply N.eqb_neq in H]
         end;
    intros [= <- <- <-]; repeat split; try lia.
  all: try (left; lia).
  all: try (right; left; repeat split; lia).
  all: try (right; right; repeat split; lia).
Qed.

(** A rune below 0x80 is decoded from the byte that it is: a sequence of
    several bytes never decodes to one, and neither does an invalid
    byte. *)
Lemma DecodeRune_ascii (c : ascii) (t : string) (r : N) (w : nat) :
  DecodeRune (String c t) = (r, w) -> r < 128 -> byteN c = r /\ w = 1%nat.
Proof.
  unfold DecodeRune. set (s0 := byteN c).
  destruct (s0 <? 128) eqn:A; [intros [= <- <-]; auto|].
  apply N.ltb_ge in A. intros E L. exfalso.
  assert (BAD : ~ RuneError < 128) by (unfold RuneError; lia).
  destruct (leadInfo s0) as [[[sz lo] hi]|] eqn:LI;
    [|injection E as <- <-; contradiction].
  destruct (leadInfo_spec _ _ _ _ LI) as (Hlo & Hhi & Hs).
  destruct t as [|c1 t1]; [injection E as <- <-; contradiction|].
  set (s1 := byteN c1) in *.
  destruct (inRange lo hi s1) eqn:R1; simpl in E;
    [apply inRange_spec in R1|injection E as <- <-; contradiction].
  destruct (land_mod s0) as (M0a & M0b & M0c & _).
  destruct (land_mod s1) as (_ & _ & _ & M1).
  destruct (mod_facts s0 32 ltac:(discriminate)) as [D0a B0a].
  destruct (mod_facts s0 16 ltac:(discriminate)) as [D0b B0b].
  destruct (mod_facts s0 8 ltac:(discriminate)) as [D0c B0c].
  destruct (mod_facts s1 64 ltac:(discriminate)) as [D1 B1].
  destruct (sz =? 2) eqn:S2.
  { injection E as <- <-.
    apply N.eqb_eq in S2. subst sz.
    destruct Hs as [[_ Hs]|[[Hs _]|[Hs _]]]; try discriminate.
    pose proof (lor_ge_l (N.shiftl (N.land s0 31) 6) (N.land s1 63)) as G.
    rewrite !N.shiftl_mul_pow2, M0a in *. change (2 ^ 6) with 64 in *. lia. }
  apply N.eqb_neq in S2.
  destruct t1 as [|c2 t2]; [injection E as <- <-; contradiction|].
  destruct (inRange 128 191 (byteN c2)) eqn:R2; simpl in E;
    [|injection E as <- <-; contradiction].
  destruct (sz =? 3) eqn:S3.
  { injection E as <- <-.
    apply N.eqb_eq in S3. subst sz.
    destruct Hs as [[Hs _]|[(_ & Hs & Hl)|[Hs _]]]; try discriminate.
    pose proof (lor_ge_l (N.lor (N.shiftl (N.land s0 15) 12)
                                (N.shiftl (N.land s1 63) 6))
                         (N.land (byteN c2) 63)) as G.
    pose proof (lor_ge_l (N.shiftl (N.land s0 15) 12)
                         (N.shiftl (N.land s1 63) 6)) as Ga.
    pose proof (lor_ge_r (N.shiftl (N.land s0 15) 12)
                         (N.shiftl (N.land s1 63) 6)) as Gb.
    rewrite !N.shiftl_mul_pow2, M0b, M1 in *.
    change (2 ^ 12) with 4096 in *. change (2 ^ 6) with 64 in *.
    destruct (N.eq_dec s0 224) as [Z|Z]; [specialize (Hl Z)|]; lia. }
  apply N.eqb_neq in S3.
  destruct Hs as [[Hs _]|[[Hs _]|(_ & Hs & Hl)]]; try contradiction.
  destruct t2 as [|c3 t3]; [injection E as <- <-; contradiction|].
  destruct (inRange 128 191 (byteN c3)) eqn:R3; simpl in E;
    [|injection E as <- <-; contradiction].
  injection E as <- <-.
  pose proof (lor_ge_l (N.lor (N.lor (N.shiftl (N.land s0 7) 18)
                                     (N.shiftl (N.land s1 63) 12))
                              (N.shiftl (N.land (byteN c2) 63) 6))
                       (N.land (byteN c3) 63)) as G.
  pose proof (lor_ge_l (N.lor (N.shiftl (N.land s0 7) 18)
                              (N.shiftl (N.land s1 63) 12))
                       (N.shiftl (N.land (byteN c2) 63) 6)) as G'.
  pose proof (lor_ge_l (N.shiftl (N.land s0 7) 18)
                       (N.shiftl (N.land s1 63) 12)) as Ga.
  pose proof (lor_ge_r (N.shiftl (N.land s0 7) 18)
                       (N.shiftl (N.land s1 63) 12)) as Gb.
  rewrite !N.shiftl_mul_pow2, M0c, M1 in *.
  change (2 ^ 18) with 262144 in *. change (2 ^ 12) with 4096 in *.
  destruct (N.eq_dec s0 240) as [Z|Z]; [specialize (Hl Z)|]; lia.
Qed.

End Decoding.

Section TitleRunes.

Variable U : Tables.

Lemma TitleUTF8_from_skip (prev : N) (k : nat) (c : ascii) (t : string) :
  TitleUTF8_from U prev (S k) (String c t) = TitleUTF8_from U prev k t.
Proof. reflexivity. Qed.

Lemma TitleUTF8_from_rune (prev : N) (c : ascii) (t : string) :
  TitleUTF8_from U prev 0 (String c t) =
  EncodeRune (if isSeparatorRune U prev
              then ToTitleRune U (fst (DecodeRune (String c t)))
              else fst (DecodeRune (String c t)))
  +:+ TitleUTF8_from U (fst (DecodeRune (String c t)))
        (snd (DecodeRune (String c t)) - 1) t.
Proof.
  change (TitleUTF8_from U prev 0 (String c t))
    with (let (r, width) := DecodeRune (String c t) in
          EncodeRune (if isSeparatorRune U prev then ToTitleRune U r else r)
          +:+ TitleUTF8_from U r (width - 1) t).
  destruct (DecodeRune (String c t)). reflexivity.
Qed.

Hypothesis U_clean :
  forall x, (128 <= x)%N -> isSeparatorCode (ToTitleTable U x) = false.

(** Title-casing writes no space, '-' or '_' that it did not read. *)
Lemma has_TitleUTF8_from (d : ascii) (s : string) :
  isSeparatorByte d = true ->
  forall prev skip, has d (TitleUTF8_from U prev skip s) = true -> has d s = true.
Proof.
  intros D. induction s as [|c t IH]; intros prev skip; [destruct skip; discriminate|].
  rewrite has_cons. destruct skip as [|k].
  - rewrite TitleUTF8_from_rune, has_append.
    destruct (DecodeRune (String c t)) as [r w] eqn:E. simpl fst. simpl snd.
    intros H. apply orb_true_iff in H as [H|H];
      [|rewrite (IH _ _ H); apply orb_true_r].
    apply (has_EncodeRune d _ D) in H.
    assert (R : r = byteN d).
    { destruct (isSeparatorRune U prev); [|exact H].
      rewrite <- H. symmetry. apply (ToTitleRune_separator U r U_clean).
      rewrite H. apply isSeparatorByte_code, D. }
    assert (L : (r < 128)%N).
    { rewrite R. apply isSeparatorCode_lt, isSeparatorByte_code, D. }
    destruct (DecodeRune_ascii _ _ _ _ E L) as [B _].
    rewrite R in B. apply byteN_inj in B. subst c.
    rewrite Ascii.eqb_refl. reflexivity.
  - rewrite TitleUTF8_from_skip. intros H.
    rewrite (IH _ _ H). apply orb_true_r.
Qed.

Lemma has_TitleUTF8 (d : ascii) (s : string) :
  isSeparatorByte d = true -> has d (TitleUTF8 U s) = true -> has d s = true.
Proof. intros D. apply has_TitleUTF8_from, D. Qed.

End TitleRunes.

Section CamelWith.

Variable title : string -> string.

Lemma lint_lintWith (s : string) : lint s = lintWith Title s.
Proof. reflexivity. Qed.

(** The folding over a title-casing that writes no byte [d] it did not
    read: a byte [d] of the folded name is a byte of the name, and is not
    the separator. *)
Lemma has_toCamelWith (sep d : ascii) (name : string) :
  (forall p, has d (title p) = true -> has d p = true) ->
  has d (toCamelWith title sep name) = true ->
  has d name = true /\ Ascii.eqb d sep = false.
Proof.
  intros T. unfold toCamelWith.
  destruct (Split name sep) as [|s0 [|s1 rest]] eqn:Hs.
  - destruct (Split_cons name sep) as (? & ? & ?). congruence.
  - intros H. split; [assumption|].
    destruct (Split_single _ _ _ Hs) as [_ Hn].
    destruct (Ascii.eqb d sep) eqn:E; [|reflexivity].
    apply Ascii.eqb_eq in E. subst d. congruence.
  - intros H. apply has_Join in H as (p & Hin & Hp).
    destruct Hin as [<-|Hin].
    + apply (Split_pieces name sep d s0); [rewrite Hs; left; reflexivity|assumption].
    + apply in_map_iff in Hin as (p0 & <- & Hin0).
      apply (Split_pieces name sep d p0); [rewrite Hs; right; assumption|].
      apply T; assumption.
Qed.

Hypothesis title_clean :
  forall d p, isSeparatorByte d = true -> has d (title p) = true -> has d p = true.

Lemma lintWith_clean (s : string) :
  has space (lintWith title s) = false /\ has dash (lintWith title s) = false
  /\ has underscore (lintWith title s) = false.
Proof.
  unfold lintWith. set (r := squish (initialisms s)).
  repeat split.
  - destruct (has space (toCamelWith title underscore (toCamelWith title dash r)))
      eqn:H; [|reflexivity].
    apply has_toCamelWith in H as [H _]; [|intros p; apply title_clean; reflexivity].
    apply has_toCamelWith in H as [H _]; [|intros p; apply title_clean; reflexivity].
    unfold r, squish in H. rewrite has_Remove_same in H. discriminate.
  - destruct (has dash (toCamelWith title underscore (toCamelWith title dash r)))
      eqn:H; [|reflexivity].
    apply has_toCamelWith in H as [H _]; [|intros p; apply title_clean; reflexivity].
    apply has_toCamelWith in H as [_ H]; [|intros p; apply title_clean; reflexivity].
    discriminate.
  - destruct (has underscore (toCamelWith title underscore (toCamelWith title dash r)))
      eqn:H; [|reflexivity].
    apply has_toCamelWith in H as [_ H]; [|intros p; apply title_clean; reflexivity].
    discriminate.
Qed.

End CamelWith.

(** ** ASCII text: the rune-level functions are the byte-wise ones *)

Section Ascii.

Variable U : Tables.

Ltac ascii_cases c H :=
  destruct c as [[] [] [] [] [] [] [] []];
  try (vm_compute in H; discriminate H); vm_compute; reflexivity.

Lemma DecodeRune_byte (c : ascii) (t : string) :
  (byteN c <? 128)%N = true -> DecodeRune (String c t) = (byteN c, 1%nat).
Proof. intros H. unfold DecodeRune. rewrite H. reflexivity. Qed.

Lemma isSeparatorRune_byte (c : ascii) :
  (byteN c <? 128)%N = true -> isSeparatorRune U (byteN c) = isSeparator c.
Proof. intros H. ascii_cases c H. Qed.

Lemma ToTitleRune_byte (c : ascii) :
  (byteN c <? 128)%N = true -> ToTitleRune U (byteN c) = byteN (ToTitle c).
Proof. intros H. ascii_cases c H. Qed.

Lemma EncodeRune_byte (c : ascii) :
  (byteN c <? 128)%N = true -> EncodeRune (byteN c) = String c "".
Proof. intros H. ascii_cases c H. Qed.

Lemma ToTitle_ascii (c : ascii) :
  (byteN c <? 128)%N = true -> (byteN (ToTitle c) <? 128)%N = true.
Proof. intros H. ascii_cases c H. Qed.

Lemma TitleUTF8_from_ascii (s : string) :
  isASCII s = true ->
  forall p, (byteN p <? 128)%N = true ->
            TitleUTF8_from U (byteN p) 0 s = Title_from p s.
Proof.
  induction s as [|c t IH]; intros A p P; [reflexivity|].
  simpl in A. apply andb_true_iff in A as [Ac At].
  rewrite TitleUTF8_from_rune, (DecodeRune_byte _ _ Ac). simpl fst. simpl snd.
  change (1 - 1)%nat with 0%nat.
  rewrite (isSeparatorRune_byte _ P), (ToTitleRune_byte _ Ac).
  rewrite (IH At c Ac). simpl Title_from.
  destruct (isSeparator p).
  - rewrite (EncodeRune_byte _ (ToTitle_ascii _ Ac)). reflexivity.
  - rewrite (EncodeRune_byte _ Ac). reflexivity.
Qed.

Lemma TitleUTF8_ascii (s : string) : isASCII s = true -> TitleUTF8 U s = Title s.
Proof. intros A. apply (TitleUTF8_from_ascii s A space). reflexivity. Qed.

(** The first rune of a title-cased text that starts with an ASCII byte. *)
Lemma TitleUTF8_head (c : ascii) (p : string) :
  (byteN c <? 128)%N = true ->
  exists rest, TitleUTF8 U (String c p) = String (ToTitle c) rest.
Proof.
  intros A. unfold TitleUTF8.
  rewrite TitleUTF8_from_rune, (DecodeRune_byte _ _ A). simpl fst. simpl snd.
  change (isSeparatorRune U 32) with true. cbv iota.
  rewrite (ToTitleRune_byte _ A), (EncodeRune_byte _ (ToTitle_ascii _ A)).
  rewrite append_String. eauto.
Qed.

Lemma isASCII_append (a b : string) :
  isASCII (a +:+ b) = isASCII a && isASCII b.
Proof.
  induction a as [|c a IH]; [reflexivity|].
  rewrite append_String. simpl. rewrite IH. apply andb_assoc.
Qed.

Lemma isASCII_Remove (c : ascii) (s : string) :
  isASCII s = true -> isASCII (Remove c s) = true.
Proof.
  induction s as [|d s IH]; simpl; [reflexivity|].
  intros A. apply andb_true_iff in A as [A1 A2].
  destruct (Ascii.eqb d c); simpl; rewrite ?A1; auto.
Qed.

Lemma isASCII_Title_from (p : ascii) (s : string) :
  isASCII s = true -> isASCII (Title_from p s) = true.
Proof.
  revert p. induction s as [|c s IH]; intros p; simpl; [reflexivity|].
  intros A. apply andb_true_iff in A as [A1 A2].
  rewrite (IH _ A2), andb_true_r.
  destruct (isSeparator p); [apply ToTitle_ascii|]; exact A1.
Qed.

Lemma isASCII_Split (s : string) (sep : ascii) :
  isASCII s = true -> Forall (fun p => isASCII p = true) (Split s sep).
Proof.
  induction s as [|c t IH]; simpl; intros A; [repeat constructor|].
  apply andb_true_iff in A as [A1 A2]. specialize (IH A2).
  destruct (Ascii.eqb c sep); [constructor; [reflexivity|exact IH]|].
  destruct (Split t sep) as [|p ps]; [repeat constructor; simpl; rewrite A1; reflexivity|].
  inversion IH; subst. constructor; [simpl; rewrite A1; assumption|assumption].
Qed.

Lemma isASCII_Join (l : list string) :
  Forall (fun p => isASCII p = true) l -> isASCII (Join l) = true.
Proof.
  induction 1 as [|p l Hp _ IH]; simpl; [reflexivity|].
  rewrite isASCII_append, Hp, IH. reflexivity.
Qed.

Lemma isASCII_rewrites (pairs : list (string * string)) (s s' : string) :
  (forall old new, In (old, new) pairs -> isASCII new = true) ->
  rewrites pairs s s' -> isASCII s = true -> isASCII s' = true.
Proof.
  intros H. induction 1 as [|c s s' _ IH|old new s s' Hin _ IH]; simpl.
  - reflexivity.
  - intros A. apply andb_true_iff in A as [A1 A2]. rewrite A1, (IH A2). reflexivity.
  - rewrite !isASCII_append. intros A. apply andb_true_iff in A as [_ A2].
    rewrite (H _ _ Hin), (IH A2). reflexivity.
Qed.

Lemma isASCII_initialisms (s : string) :
  isASCII s = true -> isASCII (initialisms s) = true.
Proof.
  apply (isASCII_rewrites initialismPairs); [|apply initialisms_rewrites].
  assert (T : forallb (fun p => isASCII (snd p)) initialismPairs = true)
    by (vm_compute; reflexivity).
  rewrite forallb_forall in T. intros old new Hin. apply (T _ Hin).
Qed.

(** Folding with two title-casings that agree on the pieces. *)
Lemma toCamelWith_ext (t1 t2 : string -> string) (sep : ascii) (name : string) :
  (forall p, In p (Split name sep) -> t1 p = t2 p) ->
  toCamelWith t1 sep name = toCamelWith t2 sep name.
Proof.
  intros H. unfold toCamelWith.
  destruct (Split name sep) as [|s0 [|s1 rest]]; try reflexivity.
  simpl. rewrite (H s1) by (right; left; reflexivity).
  f_equal. f_equal. f_equal. apply map_ext_in. intros p Hp.
  apply H. right. right. exact Hp.
Qed.

Lemma toCamelWith_ascii (sep : ascii) (name : string) :
  isASCII name = true ->
  toCamelWith (TitleUTF8 U) sep name = toCamel sep name
  /\ isASCII (toCamel sep name) = true.
Proof.
  intros A. pose proof (isASCII_Split name sep A) as F.
  rewrite List.Forall_forall in F. split.
  - apply toCamelWith_ext. intros p Hp. apply TitleUTF8_ascii, F, Hp.
  - unfold toCamel.
    destruct (Split name sep) as [|s0 [|s1 rest]] eqn:Hs; try exact A.
    apply isASCII_Join. constructor; [apply F; left; reflexivity|].
    apply List.Forall_forall. intros p Hp.
    apply in_map_iff in Hp as (p0 & <- & Hp0).
    apply isASCII_Title_from, F. right. exact Hp0.
Qed.

Lemma lintWith_ascii (s : string) :
  isASCII s = true ->
  lintWith (TitleUTF8 U) s = lint s /\ isASCII (lint s) = true.
Proof.
  intros A. unfold lintWith, lint.
  rewrite snakeToCamel_toCamel, dashToCamel_toCamel.
  assert (R : isASCII (squish (initialisms s)) = true)
    by apply isASCII_Remove, isASCII_initialisms, A.
  destruct (toCamelWith_ascii dash _ R) as [-> R2].
  apply (toCamelWith_ascii underscore _ R2).
Qed.

End Ascii.

Lemma someTables_clean (x : N) :
  (128 <= x)%N -> isSeparatorCode (ToTitleTable someTables x) = false.
Proof.
  intros H. unfold someTables. simpl.
  destruct (N.eqb x 383); [reflexivity|].
  destruct (N.eqb x 233); [reflexivity|].
  destruct (N.eqb x 255); [reflexivity|].
  destruct (isSeparatorCode x) eqn:E; [|reflexivity].
  apply isSeparatorCode_lt in E. lia.
Qed.

(** The long s after a '-' is title-cased to S (the result is a byte
    shorter than the name without the '-'), and an invalid byte comes out
    as U+FFFD. *)
Example lint_long_s :
  lintWith (TitleUTF8 someTables)
    ("a-" +:+ String (byte 0xC5) (String (byte 0xBF) "b")) = "aSb".
Proof. vm_compute. reflexivity. Qed.

Example lint_invalid_byte :
  lintWith (TitleUTF8 someTables) ("a-" +:+ String (byte 0xFF) "")
  = "a" +:+ String (byte 0xEF) (String (byte 0xBF) (String (byte 0xBD) "")).
Proof. vm_compute. reflexivity. Qed.

(** C9.  For every input string, of any bytes, the output of the identifier
    normalizer holds no space, no '-' and no '_', and so do the field
    identifiers (lintTitle) and the type identifiers (typeName, which
    returns a primitive name as it is).  The normalizer is the code's, with
    strings.Title on runes ([TitleUTF8]); of the tables of package unicode
    it is used only that no rune above 0x7F title-cases to one of the three
    bytes. *)
Theorem lint_no_separator (U : Tables) (s prefix : string) (exported : bool) :
  (forall x, (128 <= x)%N -> isSeparatorCode (ToTitleTable U x) = false) ->
  (has space (lintWith (TitleUTF8 U) s) = false
   /\ has dash (lintWith (TitleUTF8 U) s) = false
   /\ has underscore (lintWith (TitleUTF8 U) s) = false)
  /\ separatorFree (lintTitleWith (TitleUTF8 U) s) = true
  /\ separatorFree (typeNameWith (TitleUTF8 U) prefix exported s) = true.
Proof.
  intros H.
  assert (C : forall x, has space (lintWith (TitleUTF8 U) x) = false
                        /\ has dash (lintWith (TitleUTF8 U) x) = false
                        /\ has underscore (lintWith (TitleUTF8 U) x) = false).
  { intros x. apply lintWith_clean. intros d p D. apply (has_TitleUTF8 U H d p D). }
  split; [apply C|]. split.
  - apply separatorFree_spec, C.
  - unfold typeNameWith. destruct (primitiveName s) eqn:P.
    + unfold primitiveName, primitiveNames in P. simpl in P.
      repeat (apply orb_true_iff in P as [P|P];
              [apply String.eqb_eq in P; subst s; reflexivity|]).
      discriminate.
    + apply separatorFree_spec, C.
Qed.

Lemma lint_no_separator_witness :
  let s := "order _" +:+ String (byte 0xC5) (String (byte 0xBF) "-")
           +:+ String (byte 0xFF) "-id" in
  (has space (lintWith (TitleUTF8 someTables) s) = false
   /\ has dash (lintWith (TitleUTF8 someTables) s) = false
   /\ has underscore (lintWith (TitleUTF8 someTables) s) = false)
  /\ separatorFree (lintTitleWith (TitleUTF8 someTables) s) = true
  /\ separatorFree (typeNameWith (TitleUTF8 someTables) "x-" true s) = true.
Proof.
  intros s. apply (lint_no_separator someTables s "x-" true).
  exact someTables_clean.
Defined.

(** * Further properties, on the code's normalizer *)

(** X2.  On an ASCII name the normalizer deletes exactly the spaces, the
    '-' and the '_' and keeps the number of the other bytes: the length of
    the result is the length of the name less the number of those three
    bytes.  (On other text title-casing may change the length of a
    rune.) *)
Theorem lint_length (U : Tables) (s : string) :
  isASCII s = true ->
  String.length (lintWith (TitleUTF8 U) s) + separators s = String.length s.
Proof.
  intros A. destruct (lintWith_ascii U s A) as [-> _]. apply lint_length_bytes.
Qed.

Lemma lint_length_witness :
  String.length (lintWith (TitleUTF8 someTables) "ship to-address_id")
  + separators "ship to-address_id" = String.length "ship to-address_id".
Proof. apply (lint_length someTables "ship to-address_id"). reflexivity. Defined.

(** X14.  On ASCII names the normalizer does not depend on the tables of
    package unicode: [lint], [lintTitle] and [typeName] with strings.Title
    on runes return what the byte-wise definitions return. *)
Theorem normalizer_ascii (U : Tables) (s prefix : string) (exported : bool) :
  isASCII s = true -> isASCII prefix = true ->
  lintWith (TitleUTF8 U) s = lint s
  /\ lintTitleWith (TitleUTF8 U) s = lintTitle s
  /\ typeNameWith (TitleUTF8 U) prefix exported s = typeName prefix exported s.
Proof.
  intros A P. split; [apply lintWith_ascii, A|]. split.
  - unfold lintTitleWith, lintTitle. rewrite (TitleUTF8_ascii U s A).
    apply lintWith_ascii. apply isASCII_Title_from, A.
  - unfold typeNameWith, typeName. destruct (primitiveName s); [reflexivity|].
    rewrite (TitleUTF8_ascii U s A).
    assert (B : isASCII (if String.eqb prefix "" then s else prefix +:+ Title s) = true).
    { destruct (String.eqb prefix ""); [exact A|].
      rewrite isASCII_append, P. apply isASCII_Title_from, A. }
    destruct exported.
    + rewrite (TitleUTF8_ascii U _ B). apply lintWith_ascii.
      apply isASCII_Title_from, B.
    + apply lintWith_ascii, B.
Qed.

Lemma normalizer_ascii_witness :
  lintWith (TitleUTF8 someTables) "line-item" = lint "line-item"
  /\ lintTitleWith (TitleUTF8 someTables) "line-item" = lintTitle "line-item"
  /\ typeNameWith (TitleUTF8 someTables) "xsd" true "line-item"
     = typeName "xsd" true "line-item".
Proof. apply (normalizer_ascii someTables "line-item" "xsd" true); reflexivity. Defined.

Lemma toCamelWith_after (title : string -> string) (sep : ascii) (a : string)
    (c : ascii) (t : string) :
  (forall p, exists rest, title (String c p) = String (ToTitle c) rest) ->
  has sep a = false -> Ascii.eqb c sep = false ->
  exists rest,
    toCamelWith title sep (a +:+ String sep (String c t))
    = a +:+ String (ToTitle c) rest.
Proof.
  intros T Ha Hc. unfold toCamelWith. rewrite (Split_app _ _ _ Ha).
  simpl. rewrite Hc. destruct (Split_cons t sep) as (p & ps & ->).
  change (Join (map title (String c p :: ps)))
    with (title (String c p) +:+ Join (map title ps)).
  destruct (T p) as [rest ->]. rewrite append_String. eauto.
Qed.

(** X15.  Folding removes a '-' (a '_') that follows a part with no
    separator and writes the next byte, when it is an ASCII byte and not
    itself a separator, in title case: in upper case if it is a lower-case
    letter, unchanged otherwise.  What follows that byte may be any
    bytes. *)
Theorem camel_after_separator (U : Tables) (a : string) (c : ascii) (t : string) :
  separatorFree a = true -> isSeparatorByte c = false ->
  (byteN c <? 128)%N = true ->
  (exists rest, toCamelWith (TitleUTF8 U) dash (a +:+ String dash (String c t))
                = a +:+ String (ToTitle c) rest)
  /\ (exists rest, toCamelWith (TitleUTF8 U) underscore
                     (a +:+ String underscore (String c t))
                   = a +:+ String (ToTitle c) rest).
Proof.
  intros A C B. apply separatorFree_spec in A as (_ & A2 & A3).
  unfold isSeparatorByte in C.
  apply orb_false_iff in C as [C C3]. apply orb_false_iff in C as [_ C2].
  split; apply toCamelWith_after; try assumption;
    intros p; apply TitleUTF8_head, B.
Qed.

Lemma camel_after_separator_witness :
  (exists rest, toCamelWith (TitleUTF8 someTables) dash
                  ("line-i" +:+ String (byte 0xFF) "m")
                = "line" +:+ String "I" rest)
  /\ (exists rest, toCamelWith (TitleUTF8 someTables) underscore
                     ("line_i" +:+ String (byte 0xFF) "m")
                   = "line" +:+ String "I" rest).
Proof.
  apply (camel_after_separator someTables "line" "i" (String (byte 0xFF) "m"));
    reflexivity.
Defined.
